(** * The Ralph loop: task selection, progress recording and the bounded
      iteration loop of [src/scripts/ralph.sh]

    The script drives one story of [prd.json] per iteration through an
    external agent, commits the result and marks the story as passed.  The
    development embeds

    - the document types of [src/bin/create-app.ts] ([UserStory], [PRD]);
    - the [jq] programs the script runs on [prd.json] (selection, marking,
      the final counts), as functions on those types;
    - the script itself as a program in a small state-and-exit monad: the
      script runs under [set -e], so a failing command that is not guarded
      by [if], [&&] or [||] ends the run with that command's status.

    Everything the script cannot decide on its own (the exit status of
    [claude], [git] and of the file system operations) is supplied by an
    environment, one record per iteration.

    The script as written does not get past the assignment of its prompt
    (line 68): [jq] rejects the two programs of that line, and [set -e] ends
    the run in the first iteration that selects a story.  The environment
    record leaves that status open, so that the rest of the loop body can be
    studied; [as_written] fixes it to what the script gets, and the
    statements about whole runs of the script are made under it or for every
    environment.

    What the model takes for granted:
    - [prd.json] has the shape of [interface PRD]: ids are integers and
      [passes] is a boolean;
    - [prd.json] is written by the script only; what the agent does to the
      working tree is seen through the status of [claude] and of the
      [git diff] check;
    - [mv] within the directory is a single step;
    - pushes change nothing that the script reads back. *)

From Stdlib Require Import ZArith String List Lia Sorted.
From stdpp Require Import base decidable option list sorting gmap strings.

Local Open Scope Z_scope.

(** ** Documents *)

(** [interface UserStory] of [create-app.ts].  [id] is a JSON integer. *)
Module UserStory.
Record t : Type := mk {
  id : Z;
  title : string;
  description : string;
  acceptance : list string;
  passes : bool
}.

#[global] Instance eq_dec : EqDecision t.
Proof. solve_decision. Defined.

(** The jq assignment [.passes = true]: every other key is kept. *)
Definition set_passes_true (s : t) : t :=
  mk (id s) (title s) (description s) (acceptance s) true.
End UserStory.

(** [interface PRD] of [create-app.ts]. *)
Module PRD.
Record techStack_t : Type := mkTechStack {
  framework : string;
  ui : string;
  styling : string;
  backend : string
}.

#[global] Instance techStack_eq_dec : EqDecision techStack_t.
Proof. solve_decision. Defined.

Record t : Type := mk {
  title : string;
  overview : string;
  techStack : techStack_t;
  firebaseProjectId : string;
  userStories : list UserStory.t
}.

#[global] Instance eq_dec : EqDecision t.
Proof. solve_decision. Defined.

(** The jq assignment [.userStories = v]. *)
Definition set_userStories (v : list UserStory.t) (doc : t) : t :=
  mk (title doc) (overview doc) (techStack doc) (firebaseProjectId doc) v.
End PRD.

(** ** The jq programs of the script *)

(** [.userStories[] | select(.passes == false) | @json]: one output line per
    story whose [passes] is [false], in document order.  [@json] prints a
    story on a single line, so a line is identified with the story. *)
Definition jq_select_incomplete (doc : PRD.t) : list UserStory.t :=
  filter (λ s, UserStory.passes s = false) (PRD.userStories doc).

(** [head -n 1]: the first line of the input, if there is one. *)
Definition head_n_1 {A : Type} (lines : list A) : option A := head lines.

(** Line 40: [NEXT_STORY=$(jq -r '...' prd.json | head -n 1)].  [None]
    stands for the empty string, which line 42 takes as "all complete". *)
Definition NEXT_STORY (doc : PRD.t) : option UserStory.t :=
  head_n_1 (jq_select_incomplete doc).

(** Lines 127-128, with [$id] bound by [--argjson id "$STORY_ID"]:
    [.userStories = [.userStories[] | if .id == $id then .passes = true else . end]]. *)
Definition mark_story (target : Z) (s : UserStory.t) : UserStory.t :=
  if decide (UserStory.id s = target) then UserStory.set_passes_true s else s.

Definition jq_mark_complete (target : Z) (doc : PRD.t) : PRD.t :=
  PRD.set_userStories (mark_story target <$> PRD.userStories doc) doc.

(** A command substitution [$(...)] gives the output of the command without
    its trailing line feeds: the one [jq -r] prints after the value, and any
    the value itself ends with. *)
Fixpoint command_substitution (out : string) : string :=
  match out with
  | EmptyString => EmptyString
  | String c rest =>
      match command_substitution rest with
      | EmptyString =>
          if Ascii.eqb c (Ascii.ascii_of_nat 10) then EmptyString
          else String c EmptyString
      | kept => String c kept
      end
  end.

(** Line 49: [STORY_TITLE=$(echo "$NEXT_STORY" | jq -r '.title')]. *)
Definition STORY_TITLE (s : UserStory.t) : string :=
  command_substitution (UserStory.title s).

(** Line 51: [STORY_ACCEPTANCE=$(echo "$NEXT_STORY" | jq -r '.acceptance | join("; ")')]. *)
Definition STORY_ACCEPTANCE (s : UserStory.t) : string :=
  command_substitution (String.concat "; " (UserStory.acceptance s)).

(** Line 149: [[.userStories[] | select(.passes == true)] | length]. *)
Definition COMPLETED (doc : PRD.t) : nat :=
  length (filter (λ s, UserStory.passes s = true) (PRD.userStories doc)).

(** Line 150: [.userStories | length]. *)
Definition TOTAL (doc : PRD.t) : nat := length (PRD.userStories doc).

(** ** Vocabulary of the specification *)

(** Number of stories still to do. *)
Definition incomplete (doc : PRD.t) : nat := length (jq_select_incomplete doc).

(** The ids of the stories that are marked as passed. *)
Definition passed_ids (l : list UserStory.t) : gset Z :=
  list_to_set (UserStory.id <$> filter (λ s, UserStory.passes s = true) l).

(** Ids grow strictly along the document. *)
Definition ids_increasing (l : list UserStory.t) : Prop :=
  StronglySorted Z.lt (UserStory.id <$> l).

(** [s] is the first story of [l], in document order, that has not passed. *)
Definition first_incomplete (s : UserStory.t) (l : list UserStory.t) : Prop :=
  ∃ done rest,
    l = done ++ s :: rest ∧
    UserStory.passes s = false ∧
    Forall (λ x, UserStory.passes x = true) done.

(** [s] has the least id among the stories of [l] that have not passed. *)
Definition least_incomplete_id (s : UserStory.t) (l : list UserStory.t) : Prop :=
  s ∈ l ∧ UserStory.passes s = false ∧
  ∀ x, x ∈ l → UserStory.passes x = false → UserStory.id s ≤ UserStory.id x.

(** Two stories that differ at most in [passes], which may only go from
    [false] to [true]. *)
Definition story_advances (s s' : UserStory.t) : Prop :=
  UserStory.id s' = UserStory.id s ∧
  UserStory.title s' = UserStory.title s ∧
  UserStory.description s' = UserStory.description s ∧
  UserStory.acceptance s' = UserStory.acceptance s ∧
  (UserStory.passes s = true → UserStory.passes s' = true).

(** Same stories in the same order, nothing outside [userStories] touched. *)
Definition doc_advances (doc doc' : PRD.t) : Prop :=
  PRD.title doc' = PRD.title doc ∧
  PRD.overview doc' = PRD.overview doc ∧
  PRD.techStack doc' = PRD.techStack doc ∧
  PRD.firebaseProjectId doc' = PRD.firebaseProjectId doc ∧
  Forall2 story_advances (PRD.userStories doc) (PRD.userStories doc').

(** ** Files, history and process state *)

(** What a file holds: a complete document, or the bytes of an incomplete
    write, which [jq] cannot parse. *)
Inductive FileContent : Type :=
  | Whole (doc : PRD.t)
  | Partial (bytes : string).

#[global] Instance FileContent_eq_dec : EqDecision FileContent.
Proof. solve_decision. Defined.

(** The two kinds of commit the script creates (lines 109 and 133), with the
    variables their messages are built from. *)
Inductive CommitMessage : Type :=
  | FeatImplementStory (STORY_ID : Z) (STORY_TITLE : string)
                       (ITERATION : nat) (STORY_ACCEPTANCE : string)
  | ChoreMarkStory (STORY_ID : Z).

(** A commit, with the [prd.json] it records. *)
Record Commit : Type := mkCommit {
  message : CommitMessage;
  recorded_prd : option FileContent
}.

(** The lines the script logs, as far as the properties refer to them. *)
Inductive LogLine : Type :=
  | AllStoriesComplete
  | IterationStory (iteration : nat) (story_id : Z)
  | ClaudeCompleted (story_id : Z)
  | ClaudeFailed (story_id : Z)
  | NoChangesDetected
  | ChangesPushed
  | PushFailed
  | StoryComplete (story_id : Z).

(** The working directory ([prd.json], [prd.json.tmp], the local history)
    and the shell variables and output of the running script. *)
Record State : Type := mkState {
  prd_json : option FileContent;
  prd_json_tmp : option FileContent;
  commits : list Commit;
  ITERATION : nat;
  output : list LogLine
}.

Definition set_prd_json (v : option FileContent) (w : State) : State :=
  mkState v (prd_json_tmp w) (commits w) (ITERATION w) (output w).
Definition set_prd_json_tmp (v : option FileContent) (w : State) : State :=
  mkState (prd_json w) v (commits w) (ITERATION w) (output w).
Definition add_commit (c : Commit) (w : State) : State :=
  mkState (prd_json w) (prd_json_tmp w) (commits w ++ [c]) (ITERATION w) (output w).
Definition set_ITERATION (n : nat) (w : State) : State :=
  mkState (prd_json w) (prd_json_tmp w) (commits w) n (output w).
Definition echo (l : LogLine) (w : State) : State :=
  mkState (prd_json w) (prd_json_tmp w) (commits w) (ITERATION w) (output w ++ [l]).

(** What [jq] reads from [prd.json]: a document, when the file holds one. *)
Definition read_prd (w : State) : option PRD.t :=
  match prd_json w with
  | Some (Whole doc) => Some doc
  | _ => None
  end.

(** ** Environment *)

(** How the rewrite [jq ... prd.json > prd.json.tmp] ends. *)
Inductive RewriteOutcome : Type :=
  | RewriteOk
  | RewriteFails (written : string).

(** The statuses the script observes during one iteration.  A [nat] is an
    exit status ([0] is success) of a command that [set -e] watches; a
    [bool] is the outcome of a command that the script guards itself. *)
Record IterEnv : Type := mkIterEnv {
  (** lines 65-90: the assignment of [CLAUDE_PROMPT]; its status is that of
      the last command substitution in it, line 68's
      [cat prd.json | jq -r '.overview // \"\"'], whose jq program reaches
      [jq] with the backslashes in it.  The record leaves the status open;
      [CLAUDE_PROMPT_status] below is the one the script as written gets *)
  prompt_status : nat;
  (** line 95: [if claude -p ...] *)
  claude_ok : bool;
  (** line 103: [git diff --quiet && git diff --cached --quiet] *)
  tree_clean : bool;
  (** line 108: [git add -A] *)
  add_all_status : nat;
  (** line 109: [git commit -m "feat: ..."] *)
  feat_commit_status : nat;
  (** line 116: [git push origin main 2>/dev/null || git push origin main] *)
  feat_push_ok : bool;
  (** line 127: the [jq] rewrite into [prd.json.tmp] *)
  rewrite : RewriteOutcome;
  (** line 129: [mv prd.json.tmp prd.json] *)
  mv_status : nat;
  (** line 132: [git add prd.json] *)
  add_prd_status : nat;
  (** line 133: [git commit -m "chore: ..." || true] *)
  chore_commit_ok : bool
}.

(** An iteration in which every command succeeds; [agent] and [clean] are
    the outcome of the agent and of the working tree check. *)
Definition all_ok (agent clean : bool) : IterEnv :=
  mkIterEnv 0 agent clean 0 0 true RewriteOk 0 0 true.

(** ** The script monad: state, and exit under [set -e] *)

Inductive Res (A : Type) : Type :=
  | Ret (a : A) (w : State)
  | Exit (status : nat) (w : State).
Arguments Ret {A} a w.
Arguments Exit {A} status w.

Definition sh (A : Type) : Type := State → Res A.

Definition ret {A : Type} (a : A) : sh A := λ w, Ret a w.

Definition bind {A B : Type} (m : sh A) (k : A → sh B) : sh B :=
  λ w, match m w with
       | Ret a w' => k a w'
       | Exit c w' => Exit c w'
       end.

#[global] Instance sh_ret : MRet sh := @ret.
#[global] Instance sh_bind : MBind sh := λ A B k m, bind m k.

(** Read the state, and run a state change. *)
Definition gets {A : Type} (f : State → A) : sh A := λ w, Ret (f w) w.
Definition modify (f : State → State) : sh unit := λ w, Ret tt (f w).

(** [exit n]. *)
Definition exit {A : Type} (status : nat) : sh A := λ w, Exit status w.

(** A command in a position that [set -e] watches: a status other than [0]
    ends the script with that status. *)
Definition errexit (status : nat) : sh unit :=
  match status with
  | O => ret tt
  | S _ => exit status
  end.

(** The state a computation ends in, whether it returns or exits. *)
Definition final_state {A : Type} (r : Res A) : State :=
  match r with Ret _ w => w | Exit _ w => w end.

(** ** Progress recorder (lines 127-129)

    [jq --argjson id "$STORY_ID" '...' prd.json > prd.json.tmp && mv prd.json.tmp prd.json] *)

(** The redirection [> prd.json.tmp] creates the file, or empties it. *)
Definition open_tmp (w : State) : State :=
  set_prd_json_tmp (Some (Partial "")) w.

(** [jq] reads [prd.json] and writes into [prd.json.tmp].  It succeeds when
    the environment lets it and [prd.json] holds a document. *)
Definition jq_rewrite (out : RewriteOutcome) (target : Z) (w : State) : bool * State :=
  match out, read_prd w with
  | RewriteOk, Some doc =>
      (true, set_prd_json_tmp (Some (Whole (jq_mark_complete target doc))) w)
  | RewriteOk, None => (false, w)
  | RewriteFails written, _ =>
      (false, set_prd_json_tmp (Some (Partial written)) w)
  end.

(** [mv prd.json.tmp prd.json]: one rename. *)
Definition mv_tmp (w : State) : State :=
  set_prd_json_tmp None (set_prd_json (prd_json_tmp w) w).

Definition progress_recorder (e : IterEnv) (target : Z) : sh unit :=
  modify open_tmp ;;
  ok ← (λ w, let '(ok, w') := jq_rewrite (rewrite e) target w in Ret ok w') ;
  if ok : bool then
    (* the last command of an [&&] list is watched by [set -e] *)
    errexit (mv_status e) ;;
    modify mv_tmp
  else
    (* a failure left of [&&] is not *)
    mret tt.

(** The states of the working directory a crash or an observer can see while
    the recorder runs, in order: before, after the redirection, after [jq],
    and after the rename when it takes place. *)
Definition recorder_trace (e : IterEnv) (target : Z) (w : State) : list State :=
  let w1 := open_tmp w in
  let '(ok, w2) := jq_rewrite (rewrite e) target w1 in
  [w; w1; w2] ++
  (if ok then match mv_status e with O => [mv_tmp w2] | S _ => [] end else []).

(** ** One iteration (lines 37-140) *)

Definition MAX_ITERATIONS : nat := 50.
#[global] Arguments MAX_ITERATIONS : simpl never.

(** How the body of the loop ends: falls through to the next test of the
    [while] condition (also by [continue]), or [break]. *)
Inductive Flow : Type := Continue | Break.

(** Lines 103-121: the change committer. *)
Definition change_committer (e : IterEnv) (s : UserStory.t) : sh unit :=
  if tree_clean e then
    modify (echo NoChangesDetected)
  else
    errexit (add_all_status e) ;;
    errexit (feat_commit_status e) ;;
    modify (λ w, add_commit
      (mkCommit (FeatImplementStory (UserStory.id s) (STORY_TITLE s) (ITERATION w)
                                    (STORY_ACCEPTANCE s))
                (prd_json w)) w) ;;
    modify (echo (if feat_push_ok e then ChangesPushed else PushFailed)).

(** Lines 131-134: the commit of [prd.json]; [|| true] absorbs a failing
    [git commit] and a failing push. *)
Definition commit_prd_update (e : IterEnv) (s : UserStory.t) : sh unit :=
  errexit (add_prd_status e) ;;
  if chore_commit_ok e then
    modify (λ w, add_commit (mkCommit (ChoreMarkStory (UserStory.id s)) (prd_json w)) w)
  else
    mret tt.

(** The body of the loop.  Lines 48-51 read the fields of the selected
    story, lines 58-62 read [prd.md] and line 140 sleeps: on a document of
    the shape of [PRD.t] none of them fails, and none changes the state. *)
Definition iteration (e : IterEnv) : sh Flow :=
  (* 37 *)
  modify (λ w, set_ITERATION (S (ITERATION w)) w) ;;
  (* 40: a [prd.json] that jq cannot read gives no output line either *)
  next ← gets (λ w, read_prd w ≫= NEXT_STORY) ;
  match next with
  | None =>
      (* 42-45 *)
      modify (echo AllStoriesComplete) ;;
      mret Break
  | Some s =>
      (* 48-56 *)
      modify (λ w, echo (IterationStory (ITERATION w) (UserStory.id s)) w) ;;
      (* 65-90 *)
      errexit (prompt_status e) ;;
      (* 95-100 *)
      if claude_ok e then
        modify (echo (ClaudeCompleted (UserStory.id s))) ;;
        (* 103-121 *)
        change_committer e s ;;
        (* 127-129 *)
        progress_recorder e (UserStory.id s) ;;
        (* 132-134 *)
        commit_prd_update e s ;;
        (* 136 *)
        modify (echo (StoryComplete (UserStory.id s))) ;;
        mret Continue
      else
        modify (echo (ClaudeFailed (UserStory.id s))) ;;
        mret Continue
  end.

(** ** The loop (lines 36-141) and the final summary (lines 143-157) *)

(** How the loop is left: by [break] when no story is selected, or because
    the counter reached [MAX_ITERATIONS]. *)
Inductive LoopEnd : Type := DONE | ABORTED.

(** [while [ $ITERATION -lt $MAX_ITERATIONS ]; do ... done].  [env n] is the
    environment of the iteration that sets the counter to [n].  [None] is
    returned when [fuel] runs out before the loop is left. *)
Fixpoint while_loop (fuel : nat) (env : nat → IterEnv) : sh (option LoopEnd) :=
  λ w,
    if decide (ITERATION w < MAX_ITERATIONS)%nat then
      match fuel with
      | O => Ret None w
      | S fuel' =>
          match iteration (env (S (ITERATION w))) w with
          | Ret Continue w' => while_loop fuel' env w'
          | Ret Break w' => Ret (Some DONE) w'
          | Exit c w' => Exit c w'
          end
      end
    else Ret (Some ABORTED) w.

(** What the script reports after the loop. *)
Record Summary : Type := mkSummary {
  ended : LoopEnd;
  total_iterations : nat;
  stories_completed : nat;
  stories_total : nat;
  all_implemented : bool
}.

(** Stories the summary leaves as not completed. *)
Definition stories_remaining (r : Summary) : nat :=
  (stories_total r - stories_completed r)%nat.

(** Lines 146-157, for a [prd.json] that holds a document.  For any other
    [prd.json] the model gives no summary ([None]): what [jq] prints and
    returns then depends on the bytes and on the version of [jq] (an empty
    file gives empty counts and status 0, a truncated one an error status),
    and no property below is about that case. *)
Definition final_summary (e : LoopEnd) : sh (option Summary) :=
  λ w,
    match read_prd w with
    | Some doc =>
        Ret (Some (mkSummary e (ITERATION w) (COMPLETED doc) (TOTAL doc)
                             (bool_decide (COMPLETED doc = TOTAL doc)))) w
    | None => Ret None w
    end.

(** The script: a fresh process ([ITERATION=0], no output yet) in the given
    working directory.  Lines 23-26 exit with status 1 when there is no
    [prd.json].  The result is [None] when the model gives no summary: see
    [final_summary], and [while_loop] for the fuel. *)
Definition start (w : State) : State :=
  mkState (prd_json w) (prd_json_tmp w) (commits w) 0 [].

Definition ralph_with_fuel (fuel : nat) (env : nat → IterEnv) : sh (option Summary) :=
  λ w0,
    let w := start w0 in
    match prd_json w with
    | None => Exit 1 w
    | Some _ =>
        match while_loop fuel env w with
        | Ret (Some e) w' => final_summary e w'
        | Ret None w' => Ret None w'
        | Exit c w' => Exit c w'
        end
    end.

Definition ralph : (nat → IterEnv) → sh (option Summary) :=
  ralph_with_fuel MAX_ITERATIONS.

(** ** Feature-add mode of [create-app.ts]

    [existingPrd.userStories.push(...newStories)], the only other place
    that writes an existing task list. *)
Definition addFeature_push (newStories : list UserStory.t) (existingPrd : PRD.t) : PRD.t :=
  PRD.set_userStories (PRD.userStories existingPrd ++ newStories) existingPrd.

(** ** Observations on a run *)

(** The ids of the stories the script announced, one per iteration that
    selected a story (the log line of line 54). *)
Definition selected_ids (out : list LogLine) : list Z :=
  omap (λ l, match l with IterationStory _ story_id => Some story_id | _ => None end) out.

(** An iteration in which no command that [set -e] watches fails. *)
Definition no_fatal_status (e : IterEnv) : Prop :=
  prompt_status e = O ∧ add_all_status e = O ∧ feat_commit_status e = O ∧
  mv_status e = O ∧ add_prd_status e = O.

(** Every story with an id up to [k] has passed. *)
Definition done_upto (k : Z) (doc : PRD.t) : Prop :=
  Forall (λ x, UserStory.id x ≤ k → UserStory.passes x = true) (PRD.userStories doc).

(** The ids of a document, in document order. *)
Definition story_ids (doc : PRD.t) : list Z := UserStory.id <$> PRD.userStories doc.

(** ** Properties as the specification words them

    Three sentences of the specification are stronger than what the script
    does; they are stated here as predicates of the input, to be compared
    with the script below. *)

(** Task selector: the selected story has the least id among the stories
    that have not passed, and nothing is selected exactly when every story
    has passed. *)
Definition selects_least_id (doc : PRD.t) : Prop :=
  (∀ s, NEXT_STORY doc = Some s → least_incomplete_id s (PRD.userStories doc)) ∧
  (NEXT_STORY doc = None ↔
   Forall (λ s, UserStory.passes s = true) (PRD.userStories doc)).

(** The script ends its loop on the cap and its summary is that of the
    task list it leaves: the counts of lines 149-150, with stories left. *)
Definition aborted_at_cap (env : nat → IterEnv) (w : State) : Prop :=
  ∃ r w' doc',
    ralph env w = Ret (Some r) w' ∧
    ended r = ABORTED ∧ total_iterations r = MAX_ITERATIONS ∧
    read_prd w' = Some doc' ∧
    stories_completed r = COMPLETED doc' ∧ stories_total r = TOTAL doc' ∧
    stories_remaining r = incomplete doc' ∧ (0 < incomplete doc')%nat ∧
    all_implemented r = false.

(** A commit with the message of line 109, and one with that of line 133. *)
Definition is_feat_commit (c : Commit) : Prop :=
  match message c with FeatImplementStory _ _ _ _ => True | ChoreMarkStory _ => False end.
Definition is_chore_commit (story_id : Z) (c : Commit) : Prop :=
  message c = ChoreMarkStory story_id.

(** ** Sample inputs *)

Definition sample_story (i : Z) (p : bool) : UserStory.t :=
  UserStory.mk i "story" "As a user, I want X so that Y" ["Criterion 1"; "Criterion 2"] p.

Definition sample_prd (l : list UserStory.t) : PRD.t :=
  PRD.mk "My App" "A brief description of the app"
         (PRD.mkTechStack "Angular" "PrimeNG" "TailwindCSS" "Firebase")
         "my-app-abc123" l.

(** A project directory with a committed [prd.json] and nothing else. *)
Definition sample_dir (l : list UserStory.t) : State :=
  mkState (Some (Whole (sample_prd l))) None [] 0 [].

(** Stories [1 .. n], none of them passed. *)
Definition pending_stories (n : nat) : list UserStory.t :=
  (λ i, sample_story (Z.of_nat i) false) <$> seq 1 n.

(** Ids out of order: story 2 precedes story 1. *)
Definition stories_2_1 : list UserStory.t :=
  [sample_story 2 false; sample_story 1 false].

(** Story 1 is done, 2 and 3 are pending. *)
Definition stories_1_2_3 : list UserStory.t :=
  [sample_story 1 true; sample_story 2 false; sample_story 3 false].

(** Every command succeeds, the agent always changes files. *)
Definition env_all_ok : nat → IterEnv := λ _, all_ok true false.

(** The agent succeeds and changes nothing. *)
Definition env_no_change : nat → IterEnv := λ _, all_ok true true.

(** The agent fails every time. *)
Definition env_agent_fails : nat → IterEnv := λ _, all_ok false true.

(** The script as written, with every other command succeeding and an agent
    that would change files: the assignment of [CLAUDE_PROMPT] fails with
    status 3. *)
Definition env_prompt_fails : nat → IterEnv :=
  λ _, mkIterEnv 3 true false 0 0 true RewriteOk 0 0 true.

(** The rewrite of line 127 fails after writing a few bytes. *)
Definition env_rewrite_fails : IterEnv :=
  mkIterEnv 0 true true 0 0 true (RewriteFails "{title") 0 0 true.

(** ** Further observations on the loop *)

(** The status of the assignment of [CLAUDE_PROMPT] in the script as
    written.  Inside [$(...)] the single quotes of line 68 keep the
    backslashes, so [jq] is handed the programs [.title // \"App\"] and
    [.overview // \"\"]; a backslash outside a string literal is no token of
    the jq language, [jq] does not compile the program and returns 3, and the
    assignment returns the status of its last substitution. *)
Definition CLAUDE_PROMPT_status : nat := 3.

(** The environments the script as written can meet: every other status is
    free. *)
Definition as_written (env : nat → IterEnv) : Prop :=
  ∀ n, prompt_status (env n) = CLAUDE_PROMPT_status.

(** The agent was invoked: the output has one of the two lines that follow
    the call of line 95. *)
Definition agent_invoked (out : list LogLine) : Prop :=
  ∃ story_id, ClaudeCompleted story_id ∈ out ∨ ClaudeFailed story_id ∈ out.

(** The story a commit message names. *)
Definition commit_story_id (c : Commit) : Z :=
  match message c with
  | FeatImplementStory story_id _ _ _ => story_id
  | ChoreMarkStory story_id => story_id
  end.

(** Every story with an id below [k] has passed. *)
Definition done_below (k : Z) (doc : PRD.t) : Prop :=
  Forall (λ x, UserStory.id x < k → UserStory.passes x = true) (PRD.userStories doc).

(** [i] is the id of a story of [doc] that has not passed. *)
Definition pending_id (doc : PRD.t) (i : Z) : Prop :=
  ∃ s, s ∈ PRD.userStories doc ∧ UserStory.id s = i ∧ UserStory.passes s = false.

(** ** The command line of [create-app.ts] *)

(** [parseArgs]: the loop over [process.argv.slice(2)].  An occurrence of
    [--add-feature] followed by a truthy argument, that is a non-empty
    string, sets [result.addFeature] and skips that argument; anything else
    is passed over.  [result] starts as [null]. *)
Fixpoint parseArgs_loop (args : list string) (result : option string) : option string :=
  match args with
  | [] => result
  | a :: rest =>
      if decide (a = "--add-feature") then
        match rest with
        | v :: rest' =>
            if decide (v = "") then parseArgs_loop rest result
            else parseArgs_loop rest' (Some v)
        | [] => result
        end
      else parseArgs_loop rest result
  end.

Definition parseArgs (args : list string) : option string :=
  parseArgs_loop args None.

(** ** Names and Firebase project ids of [create-app.ts]

    JavaScript strings are sequences of UTF-16 code units; [length],
    [substring] and a regular expression without the [u] flag work on code
    units. *)
Definition code_unit : Type := N.

(** The code units of an ASCII literal. *)
Definition code_units (s : string) : list code_unit :=
  Ascii.N_of_ascii <$> String.list_ascii_of_string s.

(** The character class [[a-z0-9-]]. *)
Definition is_name_char (c : code_unit) : bool :=
  ((97 <=? c) && (c <=? 122) || (48 <=? c) && (c <=? 57) || (c =? 45))%N.

(** The [validate] of the project name prompt: [/^[a-z0-9-]+$/.test(input)]. *)
Definition valid_project_name (input : list code_unit) : bool :=
  match input with
  | [] => false
  | _ => forallb is_name_char input
  end.

(** [.replace(/[^a-z0-9-]/g, '-')]. *)
Definition replace_other_chars (t : list code_unit) : list code_unit :=
  (λ c, if is_name_char c then c else 45%N) <$> t.

(** The candidate id of [createAndLinkFirebase]:
    [`${projectName}-${suffix}`.replace(/[^a-z0-9-]/g, '-').substring(0, 30)],
    where [suffix] is [Math.random().toString(36).substring(2, 8)]. *)
Definition firebase_candidate (projectName suffix : list code_unit) : list code_unit :=
  take 30 (replace_other_chars (projectName ++ 45%N :: suffix)).

(** ** New stories of feature-add mode *)

(** [Math.max(...existingPrd.userStories.map((s) => s.id), 0)].  The ids are
    JavaScript numbers, that is doubles; the model has the integers among
    them, on which comparison and maximum are those of [Z]. *)
Definition maxExistingId (existingPrd : PRD.t) : Z :=
  foldr Z.max 0 (UserStory.id <$> PRD.userStories existingPrd).

(** [x + 1] on a double [x] that is an integer and not negative.  Below
    [2^53] the sum is exact.  From [2^53] to [2^54] the doubles are the even
    integers and [x + 1] lies halfway between two of them: it is rounded to
    the one whose significand is even.  From [2^54] on, [x + 1] is rounded
    back to [x]. *)
Definition number_plus_1 (x : Z) : Z :=
  if decide (x < 2 ^ 53) then x + 1
  else if decide (x < 2 ^ 54 ∧ x mod 4 = 2) then x + 2
  else x.

(** [${maxExistingId + 1}] of lines 522 and 527: the id the prompt asks the
    new stories to start from. *)
Definition first_new_id (existingPrd : PRD.t) : Z :=
  number_plus_1 (maxExistingId existingPrd).

(** [addFeatureMode], as far as [prd.json] goes: with no new story the file
    is not written ([None]), otherwise the stories are appended. *)
Definition addFeatureMode_prd (newStories : list UserStory.t) (existingPrd : PRD.t)
  : option PRD.t :=
  match newStories with
  | [] => None
  | _ => Some (addFeature_push newStories existingPrd)
  end.

(** ** Further sample inputs *)



(** A task list in which every story has passed. *)
Definition stories_all_passed : list UserStory.t :=
  [sample_story 1 true; sample_story 2 true].

(** A task list whose only story has the id [2^53]. *)
Definition stories_2_53 : list UserStory.t := [sample_story (2 ^ 53) false].

(** Two stories for feature-add mode, numbered after [stories_1_2_3]. *)
Definition stories_4_5 : list UserStory.t :=
  [sample_story 4 false; sample_story 5 false].

(** A project name of 32 characters, and a short one. *)
Definition long_name : list code_unit := code_units "my-very-long-project-name-abc-xy".
Definition short_name : list code_unit := code_units "my-app".

(** * Proofs *)

(** ** The task selector *)

Section Selector.
Implicit Types (s x : UserStory.t) (l : list UserStory.t) (doc : PRD.t).

Lemma NEXT_STORY_unfold doc :
  NEXT_STORY doc = head (filter (λ s, UserStory.passes s = false) (PRD.userStories doc)).
Proof. reflexivity. Qed.

Lemma head_filter_pending_None l :
  head (filter (λ s, UserStory.passes s = false) l) = None ↔
  Forall (λ s, UserStory.passes s = true) l.
Proof.
  induction l as [|x l IH]; simpl.
  - split; [constructor | done].
  - rewrite filter_cons. destruct (decide (UserStory.passes x = false)) as [Hx|Hx]; simpl.
    + split; [done |]. intros H. apply Forall_cons_1 in H as [H _]. congruence.
    + rewrite IH. split.
      * intros H. constructor; [by destruct (UserStory.passes x) | done].
      * intros H. by apply Forall_cons_1 in H as [_ H].
Qed.

Lemma head_filter_pending_Some l s :
  head (filter (λ s, UserStory.passes s = false) l) = Some s ↔ first_incomplete s l.
Proof.
  induction l as [|x l IH]; simpl.
  - split; [done |]. intros (d & r & H & _). by destruct d.
  - rewrite filter_cons. destruct (decide (UserStory.passes x = false)) as [Hx|Hx]; simpl.
    + split.
      * intros [= ->]. exists [], l. by repeat split.
      * intros (d & r & H & Hs & Hd). destruct d as [|y d]; simpl in H.
        -- by inversion H.
        -- inversion H; subst. apply Forall_cons_1 in Hd as [Hy _]. congruence.
    + rewrite IH. split.
      * intros (d & r & -> & Hs & Hd). exists (x :: d), r.
        repeat split; [done |]. constructor; [by destruct (UserStory.passes x) | done].
      * intros (d & r & H & Hs & Hd). destruct d as [|y d]; simpl in H.
        -- inversion H; subst. congruence.
        -- inversion H; subst. apply Forall_cons_1 in Hd as [_ Hd]. by exists d, r.
Qed.

(** With increasing ids, whatever precedes a story has a smaller id and
    whatever follows it a larger one. *)
Lemma ids_increasing_split d s r :
  ids_increasing (d ++ s :: r) →
  Forall (λ x, UserStory.id x < UserStory.id s) d ∧
  Forall (λ x, UserStory.id s < UserStory.id x) r.
Proof.
  unfold ids_increasing. rewrite fmap_app, fmap_cons. intros H. split.
  - induction d as [|y d IH]; [constructor |]. simpl in H.
    apply StronglySorted_inv in H as [H Hy]. constructor; [| by apply IH].
    rewrite Forall_app, Forall_cons in Hy. tauto.
  - induction d as [|y d IH]; simpl in H.
    + apply StronglySorted_inv in H as [_ H]. by rewrite Forall_fmap in H.
    + apply StronglySorted_inv in H as [H _]. by apply IH.
Qed.

Lemma first_incomplete_least l s :
  ids_increasing l → first_incomplete s l →
  least_incomplete_id s l ∧
  ∀ x, x ∈ l → UserStory.passes x = false → x ≠ s → UserStory.id s < UserStory.id x.
Proof.
  intros Hinc (d & r & -> & Hs & Hd).
  destruct (ids_increasing_split _ _ _ Hinc) as [_ Hr].
  rewrite Forall_forall in Hd, Hr.
  assert (∀ x, x ∈ d ++ s :: r → UserStory.passes x = false → x = s ∨ x ∈ r) as Hcase.
  { intros x Hx Hp. rewrite elem_of_app, elem_of_cons in Hx.
    destruct Hx as [Hx | [-> | Hx]]; [| by left | by right].
    specialize (Hd x Hx). congruence. }
  split.
  - split; [| split; [done |]].
    + rewrite elem_of_app, elem_of_cons. auto.
    + intros x Hx Hp. destruct (Hcase x Hx Hp) as [-> | Hxr]; [lia |].
      specialize (Hr x Hxr). simpl in Hr. lia.
  - intros x Hx Hp Hne. destruct (Hcase x Hx Hp) as [-> | Hxr]; [done |].
    by apply Hr.
Qed.
End Selector.

(** C1, as the script has it.  The selector returns the first story in
    document order whose [passes] is [false]; it returns nothing exactly when
    every story has passed (in particular on an empty list); and whenever the
    ids increase along the document the selected story is the one with the
    least id among the stories that have not passed, every other such story
    having a strictly larger id. *)
Theorem NEXT_STORY_first_incomplete (doc : PRD.t) :
  (NEXT_STORY doc = None ↔
   Forall (λ s, UserStory.passes s = true) (PRD.userStories doc)) ∧
  (∀ s, NEXT_STORY doc = Some s ↔ first_incomplete s (PRD.userStories doc)) ∧
  (ids_increasing (PRD.userStories doc) →
   ∀ s, NEXT_STORY doc = Some s →
     least_incomplete_id s (PRD.userStories doc) ∧
     ∀ x, x ∈ PRD.userStories doc → UserStory.passes x = false → x ≠ s →
          UserStory.id s < UserStory.id x).
Proof.
  rewrite NEXT_STORY_unfold. split; [apply head_filter_pending_None |].
  split; [intros s; apply head_filter_pending_Some |].
  intros Hinc s Hs. apply first_incomplete_least; [done |].
  by apply head_filter_pending_Some.
Qed.

(** The theorem at the list 1 (passed), 2, 3: story 2 is selected and has the
    least pending id. *)
Lemma NEXT_STORY_first_incomplete_witness :
  least_incomplete_id (sample_story 2 false) stories_1_2_3.
Proof.
  apply (NEXT_STORY_first_incomplete (sample_prd stories_1_2_3)).
  - unfold ids_increasing. simpl. repeat constructor; lia.
  - reflexivity.
Defined.

(** C1, as the specification words it, fails on a list whose ids are out of
    order: from stories 2, 1 (both pending) story 2 is selected. *)
Lemma NEXT_STORY_not_least_id :
  NEXT_STORY (sample_prd stories_2_1) = Some (sample_story 2 false) ∧
  ¬ selects_least_id (sample_prd stories_2_1).
Proof.
  split; [reflexivity |]. intros [Hmin _].
  destruct (Hmin (sample_story 2 false) eq_refl) as (_ & _ & Hle).
  specialize (Hle (sample_story 1 false)). simpl in Hle.
  assert (2 ≤ 1) by (apply Hle; [unfold stories_2_1; set_solver | done]).
  lia.
Qed.

(** ** The marking program *)

Section Marking.
Implicit Types (s x : UserStory.t) (l : list UserStory.t) (doc : PRD.t).
Variable target : Z.

Lemma mark_story_hit s :
  UserStory.id s = target → mark_story target s = UserStory.set_passes_true s.
Proof. intros H. unfold mark_story. by rewrite decide_True. Qed.

Lemma mark_story_miss s :
  UserStory.id s ≠ target → mark_story target s = s.
Proof. intros H. unfold mark_story. by rewrite decide_False. Qed.

Lemma mark_story_id s : UserStory.id (mark_story target s) = UserStory.id s.
Proof. unfold mark_story. by case_decide. Qed.

Lemma mark_story_advances s : story_advances s (mark_story target s).
Proof. unfold mark_story, story_advances. case_decide; simpl; auto. Qed.

Lemma mark_story_passes s :
  UserStory.passes (mark_story target s) =
  if decide (UserStory.id s = target) then true else UserStory.passes s.
Proof. unfold mark_story. by case_decide. Qed.

Lemma mark_story_idemp s :
  mark_story target (mark_story target s) = mark_story target s.
Proof. unfold mark_story. repeat case_decide; simpl in *; done. Qed.

Lemma userStories_mark doc :
  PRD.userStories (jq_mark_complete target doc) =
  mark_story target <$> PRD.userStories doc.
Proof. reflexivity. Qed.

Lemma map_mark_absent l :
  Forall (λ s, UserStory.id s ≠ target) l → mark_story target <$> l = l.
Proof.
  induction 1 as [|x l Hx _ IH]; [done |].
  rewrite fmap_cons, IH. by rewrite mark_story_miss.
Qed.

Lemma set_userStories_same doc : PRD.set_userStories (PRD.userStories doc) doc = doc.
Proof. by destruct doc. Qed.

Lemma doc_advances_mark doc : doc_advances doc (jq_mark_complete target doc).
Proof.
  repeat split. rewrite userStories_mark. apply Forall2_fmap_r, Forall_Forall2_diag.
  apply Forall_forall. intros s _. apply mark_story_advances.
Qed.
End Marking.

(** C5.  Marking with a target id keeps the title, overview, tech stack and
    project id of the document and the number of stories; position by
    position, the story keeps its id, title, description and acceptance
    criteria; it has [passes = true] when its id is the target and is the
    very same story otherwise. *)
Theorem jq_mark_complete_frame (target : Z) (doc : PRD.t) :
  PRD.title (jq_mark_complete target doc) = PRD.title doc ∧
  PRD.overview (jq_mark_complete target doc) = PRD.overview doc ∧
  PRD.techStack (jq_mark_complete target doc) = PRD.techStack doc ∧
  PRD.firebaseProjectId (jq_mark_complete target doc) = PRD.firebaseProjectId doc ∧
  length (PRD.userStories (jq_mark_complete target doc)) = length (PRD.userStories doc) ∧
  (UserStory.id <$> PRD.userStories (jq_mark_complete target doc)) =
    (UserStory.id <$> PRD.userStories doc) ∧
  ∀ (i : nat) (s : UserStory.t), PRD.userStories doc !! i = Some s →
    ∃ s', PRD.userStories (jq_mark_complete target doc) !! i = Some s' ∧
          UserStory.id s' = UserStory.id s ∧
          UserStory.title s' = UserStory.title s ∧
          UserStory.description s' = UserStory.description s ∧
          UserStory.acceptance s' = UserStory.acceptance s ∧
          (UserStory.id s = target → UserStory.passes s' = true) ∧
          (UserStory.id s ≠ target → s' = s).
Proof.
  rewrite userStories_mark. repeat split.
  - by rewrite length_fmap.
  - rewrite <- list_fmap_compose. apply list_fmap_ext. intros _ s _. apply mark_story_id.
  - intros i s Hi. exists (mark_story target s).
    rewrite list_lookup_fmap, Hi. split; [done |].
    destruct (mark_story_advances target s) as (? & ? & ? & ? & _).
    repeat split; try done.
    + intros Hid. by rewrite mark_story_hit.
    + apply mark_story_miss.
Qed.

(** The theorem at the list 1 (passed), 2, 3 with target 2: position 1 holds
    story 2, now passed, and position 2 still holds the pending story 3. *)
Lemma jq_mark_complete_frame_witness :
  (∃ s', PRD.userStories (jq_mark_complete 2 (sample_prd stories_1_2_3)) !! 1%nat = Some s' ∧
         UserStory.passes s' = true) ∧
  (∃ s', PRD.userStories (jq_mark_complete 2 (sample_prd stories_1_2_3)) !! 2%nat = Some s' ∧
         s' = sample_story 3 false).
Proof.
  pose proof (jq_mark_complete_frame 2 (sample_prd stories_1_2_3))
    as (_ & _ & _ & _ & _ & _ & H).
  split.
  - destruct (H 1%nat (sample_story 2 false) eq_refl) as (s' & Hs' & _ & _ & _ & _ & Hp & _).
    exists s'. split; [exact Hs' | by apply Hp].
  - destruct (H 2%nat (sample_story 3 false) eq_refl) as (s' & Hs' & _ & _ & _ & _ & _ & Hq).
    exists s'. split; [exact Hs' | by apply Hq].
Defined.

(** C6.  Marking twice with the same target gives the document that marking
    once gives; in it every story with the target id has [passes = true], and
    every story with another id has the [passes] it had before any marking. *)
Theorem jq_mark_complete_idempotent (target : Z) (doc : PRD.t) :
  jq_mark_complete target (jq_mark_complete target doc) = jq_mark_complete target doc ∧
  (∀ s, s ∈ PRD.userStories (jq_mark_complete target (jq_mark_complete target doc)) →
        UserStory.id s = target → UserStory.passes s = true) ∧
  (∀ (i : nat) s s',
     PRD.userStories doc !! i = Some s →
     PRD.userStories (jq_mark_complete target (jq_mark_complete target doc)) !! i = Some s' →
     UserStory.id s ≠ target → UserStory.passes s' = UserStory.passes s).
Proof.
  assert (jq_mark_complete target (jq_mark_complete target doc)
          = jq_mark_complete target doc) as Heq.
  { unfold jq_mark_complete, PRD.set_userStories. simpl. f_equal.
    rewrite <- list_fmap_compose.
    apply list_fmap_ext. intros _ s _. apply mark_story_idemp. }
  rewrite Heq, userStories_mark. split; [done |]. split.
  - intros s Hs Hid. apply list_elem_of_fmap in Hs as (x & -> & _).
    rewrite mark_story_passes. rewrite mark_story_id in Hid. by rewrite decide_True.
  - intros i s s' Hi Hi' Hne. rewrite list_lookup_fmap, Hi in Hi'.
    injection Hi' as <-. rewrite mark_story_passes. by rewrite decide_False.
Qed.

(** The theorem at the list 1 (passed), 2, 3 with target 2: after two
    markings story 3 is as pending as it was. *)
Lemma jq_mark_complete_idempotent_witness :
  UserStory.passes (sample_story 3 false) = UserStory.passes (sample_story 3 false) ∧
  jq_mark_complete 2 (jq_mark_complete 2 (sample_prd stories_1_2_3))
  = jq_mark_complete 2 (sample_prd stories_1_2_3).
Proof.
  pose proof (jq_mark_complete_idempotent 2 (sample_prd stories_1_2_3)) as (Heq & _ & H).
  split; [| exact Heq].
  apply (H 2%nat (sample_story 3 false) (sample_story 3 false)); [reflexivity | reflexivity |].
  simpl. lia.
Defined.

(** ** The progress recorder on the working directory *)

(** Unfolds the monad down to matches on [Res]. *)
Ltac sh_unfold :=
  unfold mbind, sh_bind, bind, mret, sh_ret, ret, modify, gets, exit in *.

Lemma read_prd_Some w doc : read_prd w = Some doc ↔ prd_json w = Some (Whole doc).
Proof.
  unfold read_prd. destruct (prd_json w) as [[d|b]|]; split; intros H; by simplify_eq.
Qed.

Lemma errexit_0 w : errexit 0 w = Ret tt w.
Proof. reflexivity. Qed.

Lemma errexit_S n w : errexit (S n) w = Exit (S n) w.
Proof. reflexivity. Qed.

(** What the recorder leaves behind, case by case. *)
Lemma progress_recorder_cases e target w doc :
  read_prd w = Some doc →
  match rewrite e, mv_status e with
  | RewriteOk, O =>
      progress_recorder e target w =
      Ret tt (mkState (Some (Whole (jq_mark_complete target doc))) None
                      (commits w) (ITERATION w) (output w))
  | RewriteOk, S n =>
      progress_recorder e target w =
      Exit (S n) (mkState (prd_json w) (Some (Whole (jq_mark_complete target doc)))
                          (commits w) (ITERATION w) (output w))
  | RewriteFails written, _ =>
      progress_recorder e target w =
      Ret tt (mkState (prd_json w) (Some (Partial written))
                      (commits w) (ITERATION w) (output w))
  end.
Proof.
  intros Hdoc. unfold progress_recorder, jq_rewrite. sh_unfold.
  assert (read_prd (open_tmp w) = Some doc) as -> by done.
  destruct (rewrite e), (mv_status e); reflexivity.
Qed.

Lemma progress_recorder_ok e target w doc :
  read_prd w = Some doc → rewrite e = RewriteOk → mv_status e = O →
  progress_recorder e target w =
  Ret tt (mkState (Some (Whole (jq_mark_complete target doc))) None
                  (commits w) (ITERATION w) (output w)).
Proof.
  intros Hdoc Hrw Hmv. pose proof (progress_recorder_cases e target w doc Hdoc) as H.
  by rewrite Hrw, Hmv in H.
Qed.

(** C10.  When no story carries the target id, the marking program returns
    the document it was given, and the recorder, run with that target on a
    directory that holds the document, ends without error and leaves the
    same document in [prd.json]. *)
Theorem jq_mark_complete_absent (target : Z) (doc : PRD.t) :
  Forall (λ s, UserStory.id s ≠ target) (PRD.userStories doc) →
  jq_mark_complete target doc = doc ∧
  ∀ e w, read_prd w = Some doc → rewrite e = RewriteOk → mv_status e = O →
    ∃ w', progress_recorder e target w = Ret tt w' ∧ read_prd w' = Some doc.
Proof.
  intros Habs.
  assert (jq_mark_complete target doc = doc) as Heq.
  { unfold jq_mark_complete. rewrite (map_mark_absent target _ Habs).
    apply set_userStories_same. }
  split; [done |]. intros e w Hdoc Hrw Hmv.
  rewrite (progress_recorder_ok e target w doc Hdoc Hrw Hmv), Heq. eauto.
Qed.

(** The theorem at the list 1, 2, 3 with the absent target 7. *)
Lemma jq_mark_complete_absent_witness :
  jq_mark_complete 7 (sample_prd stories_1_2_3) = sample_prd stories_1_2_3 ∧
  ∃ w', progress_recorder (all_ok true true) 7 (sample_dir stories_1_2_3) = Ret tt w' ∧
        read_prd w' = Some (sample_prd stories_1_2_3).
Proof.
  assert (Forall (λ s, UserStory.id s ≠ 7) (PRD.userStories (sample_prd stories_1_2_3))) as H.
  { simpl. repeat constructor; simpl; lia. }
  split.
  - exact (proj1 (jq_mark_complete_absent 7 (sample_prd stories_1_2_3) H)).
  - apply (proj2 (jq_mark_complete_absent 7 (sample_prd stories_1_2_3) H));
      reflexivity.
Defined.

(** C8.  While the recorder runs on a directory whose [prd.json] holds the
    document [doc], every state of the directory has in [prd.json] either
    [doc] itself or, once the rewrite and the rename have both succeeded, the
    complete marked document; the recorder ends in the last of these states;
    and when the rewrite fails, or the rename does, [prd.json] ends as it
    was, the bytes written so far being in [prd.json.tmp] only. *)
Theorem progress_recorder_atomic (e : IterEnv) (target : Z) (w : State) (doc : PRD.t) :
  read_prd w = Some doc →
  last (recorder_trace e target w) = Some (final_state (progress_recorder e target w)) ∧
  Forall (λ w', prd_json w' = Some (Whole doc) ∨
                (rewrite e = RewriteOk ∧ mv_status e = O ∧
                 prd_json w' = Some (Whole (jq_mark_complete target doc))))
         (recorder_trace e target w) ∧
  ((rewrite e ≠ RewriteOk ∨ mv_status e ≠ O) →
   prd_json (final_state (progress_recorder e target w)) = Some (Whole doc)) ∧
  (∀ written, rewrite e = RewriteFails written →
   prd_json_tmp (final_state (progress_recorder e target w)) = Some (Partial written)).
Proof.
  intros Hdoc. pose proof (progress_recorder_cases e target w doc Hdoc) as Hrec.
  pose proof (proj1 (read_prd_Some w doc) Hdoc) as Hfile.
  unfold recorder_trace, jq_rewrite.
  assert (read_prd (open_tmp w) = Some doc) as -> by done.
  destruct (rewrite e) as [|written], (mv_status e) as [|n];
    rewrite Hrec; simpl; (split; [reflexivity |]); (split; [| split]);
    try (repeat constructor; simpl; auto; fail);
    try (intros [?|?]; done); try (intros ? [=]; congruence); try done.
Qed.

(** The theorem at a rewrite that fails after a few bytes: [prd.json] still
    holds the list 1, 2, 3 unmarked. *)
Lemma progress_recorder_atomic_witness :
  prd_json (final_state (progress_recorder env_rewrite_fails 2 (sample_dir stories_1_2_3)))
  = Some (Whole (sample_prd stories_1_2_3)).
Proof.
  apply (progress_recorder_atomic env_rewrite_fails 2 (sample_dir stories_1_2_3)
           (sample_prd stories_1_2_3) eq_refl).
  left. discriminate.
Defined.

(** ** One iteration *)

(** Unfolds one iteration down to matches on the statuses of the
    environment. *)
Ltac iteration_unfold :=
  unfold iteration, change_committer, commit_prd_update, progress_recorder,
         jq_rewrite, errexit;
  sh_unfold; simpl.

(** Case analysis on every status, after which an iteration is a value. *)
Ltac iteration_cases :=
  iteration_unfold; repeat (case_match; simplify_eq/=; try done).

Lemma iteration_counter e w :
  ITERATION (final_state (iteration e w)) = S (ITERATION w).
Proof.
  destruct w as [pj tmp cs it out], e as [ps ok clean aa fc fp rw mv ap cc].
  iteration_cases.
Qed.

Lemma selected_ids_app out out' :
  selected_ids (out ++ out') = selected_ids out ++ selected_ids out'.
Proof. apply omap_app. Qed.

(** What an iteration does to the task list, to the counter and to the
    list of announced stories. *)
Lemma iteration_effect e w doc :
  read_prd w = Some doc →
  ∃ doc',
    read_prd (final_state (iteration e w)) = Some doc' ∧
    (doc' = doc ∨
     ∃ s, NEXT_STORY doc = Some s ∧ doc' = jq_mark_complete (UserStory.id s) doc) ∧
    selected_ids (output (final_state (iteration e w))) =
      selected_ids (output w) ++
      match NEXT_STORY doc with Some s => [UserStory.id s] | None => [] end ∧
    match NEXT_STORY doc with
    | None => ∃ w', iteration e w = Ret Break w'
    | Some _ => ∀ w', iteration e w ≠ Ret Break w'
    end.
Proof.
  intros Hdoc%read_prd_Some.
  destruct w as [pj tmp cs it out], e as [ps ok clean aa fc fp rw mv ap cc].
  simpl in Hdoc. subst pj.
  iteration_unfold.
  destruct (NEXT_STORY doc) as [s|] eqn:Hnext; simpl.
  - repeat (case_match; simplify_eq/=);
      (eexists; split; [reflexivity |]);
      (split; [eauto |]);
      (split; [| done]);
      rewrite ?selected_ids_app; simpl; by rewrite ?app_nil_r.
  - eexists. split; [reflexivity |]. split; [by left |].
    split; [| by eexists]. rewrite selected_ids_app. simpl. by rewrite app_nil_r.
Qed.

(** Without a fatal status an iteration ends normally. *)
Lemma iteration_no_exit e w :
  no_fatal_status e → ∃ flow w', iteration e w = Ret flow w'.
Proof.
  intros (Hps & Haa & Hfc & Hmv & Hap).
  destruct w as [pj tmp cs it out], e as [ps ok clean aa fc fp rw mv ap cc].
  simpl in *. subst.
  iteration_unfold.
  repeat (case_match; simplify_eq/=); eauto.
Qed.

(** When the assignment of [CLAUDE_PROMPT] fails, [set -e] ends the script
    there: the story has been announced, the agent is not invoked, and the
    files and the history are as they were. *)
Lemma iteration_prompt_fails e w doc s n :
  read_prd w = Some doc → NEXT_STORY doc = Some s → prompt_status e = S n →
  iteration e w =
  Exit (S n) (echo (IterationStory (S (ITERATION w)) (UserStory.id s))
                (set_ITERATION (S (ITERATION w)) w)).
Proof.
  intros Hdoc%read_prd_Some Hnext Hps. destruct w as [pj tmp cs it out].
  simpl in Hdoc. subst pj. iteration_unfold.
  rewrite Hnext. simpl. by rewrite Hps.
Qed.

(** ** Failure of the agent *)

(** The iteration in which the agent fails, as a value. *)
Lemma iteration_claude_fails e w doc s :
  read_prd w = Some doc → NEXT_STORY doc = Some s →
  prompt_status e = O → claude_ok e = false →
  iteration e w =
  Ret Continue (echo (ClaudeFailed (UserStory.id s))
                 (echo (IterationStory (S (ITERATION w)) (UserStory.id s))
                    (set_ITERATION (S (ITERATION w)) w))).
Proof.
  intros Hdoc%read_prd_Some Hnext Hps Hok. destruct w as [pj tmp cs it out].
  simpl in Hdoc. subst pj. iteration_unfold.
  rewrite Hnext. simpl. rewrite Hps, Hok. reflexivity.
Qed.

(** As long as the agent fails, the loop changes neither the files nor the
    history, and leaves on the cap. *)
Lemma while_loop_agent_fails env doc s :
  NEXT_STORY doc = Some s →
  (∀ n, prompt_status (env n) = O ∧ claude_ok (env n) = false) →
  ∀ fuel w,
    read_prd w = Some doc →
    (MAX_ITERATIONS - ITERATION w ≤ fuel)%nat →
    (ITERATION w ≤ MAX_ITERATIONS)%nat →
    ∃ w', while_loop fuel env w = Ret (Some ABORTED) w' ∧
          ITERATION w' = MAX_ITERATIONS ∧
          prd_json w' = prd_json w ∧ prd_json_tmp w' = prd_json_tmp w ∧
          commits w' = commits w.
Proof.
  intros Hnext Henv fuel. induction fuel as [|fuel IH]; intros w Hdoc Hfuel Hle.
  - exists w. simpl. rewrite decide_False by lia. repeat split; lia.
  - simpl. destruct (decide (ITERATION w < MAX_ITERATIONS)%nat) as [Hlt|Hge];
      [| exists w; repeat split; lia].
    destruct (Henv (S (ITERATION w))) as [Hps Hok].
    rewrite (iteration_claude_fails _ w doc s Hdoc Hnext Hps Hok).
    match goal with |- context [while_loop fuel env ?w1] =>
      destruct (IH w1) as (w' & Hrun & Hit & Hf & Ht & Hc) end.
    + done.
    + unfold MAX_ITERATIONS in *. simpl. lia.
    + unfold MAX_ITERATIONS in *. simpl. lia.
    + exists w'. by rewrite Hrun.
Qed.

(** Lines 95-100 taken alone.  The hypothesis [prompt_status e = 0] is one
    that the script as written never meets ([ralph_exits_at_prompt] below),
    so this is a statement about the branch, not about a run.  In an
    iteration that gets past the assignment of the prompt and in which the
    agent reports failure, the body ends by [continue]: [prd.json],
    [prd.json.tmp] and the history are what they were, the counter has
    advanced by one, and the selector applied to the persisted list returns
    [s] again; if that happens in every iteration, the loop ends on the cap
    with the task list untouched. *)
Lemma agent_failure_branch (e : IterEnv) (w : State) (doc : PRD.t) (s : UserStory.t) :
  read_prd w = Some doc → NEXT_STORY doc = Some s →
  prompt_status e = O → claude_ok e = false →
  ∃ w',
    iteration e w = Ret Continue w' ∧
    prd_json w' = prd_json w ∧ prd_json_tmp w' = prd_json_tmp w ∧
    commits w' = commits w ∧
    UserStory.passes s = false ∧
    ITERATION w' = S (ITERATION w) ∧
    output w' = output w ++ [IterationStory (S (ITERATION w)) (UserStory.id s);
                             ClaudeFailed (UserStory.id s)] ∧
    (read_prd w' ≫= NEXT_STORY) = Some s ∧
    (∀ e', selected_ids (output (final_state (iteration e' w'))) =
           selected_ids (output w') ++ [UserStory.id s]) ∧
    (∀ env, (∀ n, prompt_status (env n) = O ∧ claude_ok (env n) = false) →
       ∃ r w'', ralph env w = Ret (Some r) w'' ∧
                ended r = ABORTED ∧ total_iterations r = MAX_ITERATIONS ∧
                read_prd w'' = Some doc ∧ commits w'' = commits w).
Proof.
  intros Hdoc Hnext Hps Hok.
  eexists. split; [by apply (iteration_claude_fails e w doc s) |].
  assert (UserStory.passes s = false) as Hpending.
  { apply head_filter_pending_Some in Hnext as (_ & _ & _ & H & _). exact H. }
  simpl. repeat split; try done.
  - by rewrite <- app_assoc.
  - unfold read_prd in *. simpl. destruct (prd_json w) as [[d|b]|]; simplify_eq/=. done.
  - intros e'.
    match goal with |- context [iteration e' ?w1] =>
      destruct (iteration_effect e' w1 doc) as (doc' & _ & _ & Hsel & _) end.
    { unfold read_prd in *. simpl. exact Hdoc. }
    rewrite Hsel, Hnext. done.
  - intros env Henv.
    destruct (while_loop_agent_fails env doc s Hnext Henv MAX_ITERATIONS (start w))
      as (w'' & Hrun & Hit & Hf & Ht & Hc);
      [done | unfold MAX_ITERATIONS; simpl; lia | unfold MAX_ITERATIONS; simpl; lia |].
    unfold ralph, ralph_with_fuel.
    assert (prd_json (start w) = Some (Whole doc)) as Hfile by by apply read_prd_Some.
    rewrite Hfile, Hrun. unfold final_summary.
    assert (read_prd w'' = Some doc) as Hdoc''.
    { apply read_prd_Some. by rewrite Hf. }
    rewrite Hdoc''. eexists _, w''. repeat split; done.
Qed.

(** ** Success of the agent without file changes *)

(** Lines 101-136 taken alone, under the same hypothesis
    [prompt_status e = 0] that the script as written never meets.  In an
    iteration that gets past the assignment of the prompt, in which the
    agent succeeds and the check of line 103 finds the working tree clean:
    the commits the iteration adds, if any, all carry the message of the
    task list update, and the warning of the no-change branch is logged;
    when the rewrite and the rename succeed, [prd.json] holds the list with
    [s] marked; and when [git add prd.json] and [git commit] succeed as
    well, exactly one commit is added, with the message of the update and
    the marked list as its [prd.json]. *)
Lemma no_change_branch (e : IterEnv) (w : State) (doc : PRD.t) (s : UserStory.t) :
  read_prd w = Some doc → NEXT_STORY doc = Some s →
  prompt_status e = O → claude_ok e = true → tree_clean e = true →
  (∃ new, commits (final_state (iteration e w)) = commits w ++ new ∧
          Forall (is_chore_commit (UserStory.id s)) new ∧
          Forall (λ c, ¬ is_feat_commit c) new) ∧
  (∃ rest, output (final_state (iteration e w)) =
           output w ++ [IterationStory (S (ITERATION w)) (UserStory.id s);
                        ClaudeCompleted (UserStory.id s); NoChangesDetected] ++ rest) ∧
  (rewrite e = RewriteOk → mv_status e = O →
   read_prd (final_state (iteration e w)) = Some (jq_mark_complete (UserStory.id s) doc)) ∧
  (mv_status e = O → add_prd_status e = O →
   ∃ w', iteration e w = Ret Continue w' ∧
         last (output w') = Some (StoryComplete (UserStory.id s))) ∧
  (rewrite e = RewriteOk → mv_status e = O → add_prd_status e = O →
   chore_commit_ok e = true →
   ∃ w' c, iteration e w = Ret Continue w' ∧
           read_prd w' = Some (jq_mark_complete (UserStory.id s) doc) ∧
           commits w' = commits w ++ [c] ∧
           is_chore_commit (UserStory.id s) c ∧ recorded_prd c = prd_json w').
Proof.
  intros Hdoc%read_prd_Some Hnext Hps Hok Hclean.
  destruct w as [pj tmp cs it out], e as [ps ok clean aa fc fp rw mv ap cc].
  simpl in *. subst.
  iteration_unfold. rewrite Hnext. simpl.
  split_and!.
  - destruct rw as [|written], mv as [|mv], ap as [|ap], cc; simpl;
      first [ exists nil; split; [by rewrite app_nil_r | split; constructor]
            | eexists (cons _ nil); split; [reflexivity |];
              split; (constructor; [| constructor]);
              [reflexivity | intros []] ].
  - destruct rw as [|written], mv as [|mv], ap as [|ap], cc; simpl;
      rewrite <- ?app_assoc; simpl; eexists; reflexivity.
  - intros -> ->. destruct ap as [|ap], cc; reflexivity.
  - intros -> ->. destruct rw as [|written], cc; simpl;
      (eexists; split; [reflexivity |]); simpl; by rewrite last_snoc.
  - intros -> -> -> ->. simpl. by eexists _, _.
Qed.

(** ** Monotone progress *)

Section Advances.
Implicit Types (s : UserStory.t) (l : list UserStory.t) (doc : PRD.t).

Lemma story_advances_refl s : story_advances s s.
Proof. by repeat split. Qed.

Lemma story_advances_trans s1 s2 s3 :
  story_advances s1 s2 → story_advances s2 s3 → story_advances s1 s3.
Proof.
  intros (? & ? & ? & ? & ?) (? & ? & ? & ? & ?).
  repeat split; try congruence. auto.
Qed.

Lemma doc_advances_refl doc : doc_advances doc doc.
Proof.
  repeat split. apply Forall_Forall2_diag, Forall_forall.
  intros s _. apply story_advances_refl.
Qed.

Lemma doc_advances_trans doc1 doc2 doc3 :
  doc_advances doc1 doc2 → doc_advances doc2 doc3 → doc_advances doc1 doc3.
Proof.
  intros (? & ? & ? & ? & H12) (? & ? & ? & ? & H23).
  repeat split; try congruence.
  eapply Forall2_trans; [| exact H12 | exact H23].
  intros s1 s2 s3. apply story_advances_trans.
Qed.

Lemma advances_passed_ids l l' :
  Forall2 story_advances l l' → passed_ids l ⊆ passed_ids l'.
Proof.
  unfold passed_ids. induction 1 as [|s s' l l' (Hid & _ & _ & _ & Hp) _ IH]; [done |].
  rewrite !filter_cons.
  destruct (decide (UserStory.passes s = true)) as [Hs|Hs].
  - rewrite decide_True by auto. rewrite !fmap_cons, !list_to_set_cons, Hid.
    by apply union_mono_l.
  - etrans; [exact IH |]. case_decide; [| done].
    rewrite fmap_cons, list_to_set_cons. apply union_subseteq_r.
Qed.

Lemma advances_story_ids doc doc' :
  doc_advances doc doc' → story_ids doc' = story_ids doc.
Proof.
  intros (_ & _ & _ & _ & H). unfold story_ids.
  induction H as [|s s' l l' (Hid & _) _ IH]; [done |].
  by rewrite !fmap_cons, Hid, IH.
Qed.

Lemma iteration_advances e w doc :
  read_prd w = Some doc →
  ∃ doc', read_prd (final_state (iteration e w)) = Some doc' ∧ doc_advances doc doc'.
Proof.
  intros Hdoc. destruct (iteration_effect e w doc Hdoc) as (doc' & Hdoc' & Hcase & _).
  exists doc'. split; [done |].
  destruct Hcase as [-> | (s & _ & ->)];
    [apply doc_advances_refl | apply doc_advances_mark].
Qed.

Lemma while_loop_advances env fuel : ∀ w doc,
  read_prd w = Some doc →
  ∃ doc', read_prd (final_state (while_loop fuel env w)) = Some doc' ∧
          doc_advances doc doc'.
Proof.
  induction fuel as [|fuel IH]; intros w doc Hdoc; simpl.
  - case_decide; exists doc; split; try done; apply doc_advances_refl.
  - case_decide; [| exists doc; split; [done | apply doc_advances_refl]].
    destruct (iteration_advances (env (S (ITERATION w))) w doc Hdoc)
      as (doc1 & Hdoc1 & Hadv1).
    destruct (iteration (env (S (ITERATION w))) w) as [[] w1 | c w1]; simpl in Hdoc1.
    + destruct (IH w1 doc1 Hdoc1) as (doc' & Hdoc' & Hadv').
      exists doc'. split; [done |]. by eapply doc_advances_trans.
    + by exists doc1.
    + by exists doc1.
Qed.

Lemma ralph_advances env fuel w doc :
  read_prd w = Some doc →
  ∃ doc', read_prd (final_state (ralph_with_fuel fuel env w)) = Some doc' ∧
          doc_advances doc doc'.
Proof.
  intros Hdoc. unfold ralph_with_fuel.
  assert (read_prd (start w) = Some doc) as Hstart by done.
  pose proof (proj1 (read_prd_Some _ _) Hstart) as ->.
  destruct (while_loop_advances env fuel (start w) doc Hstart) as (doc' & Hdoc' & Hadv).
  exists doc'. split; [| done].
  destruct (while_loop fuel env (start w)) as [[e|] w1 | c w1]; simpl in *; try done.
  unfold final_summary. by rewrite Hdoc'.
Qed.
End Advances.

(** C4.  Whatever the environment does: one iteration, any number of
    iterations of the loop from any state, and a whole run of the script
    each leave a task list with the same stories in the same order, each with
    its id, title, description and acceptance criteria, in which every story
    that had passed still has; so the ids are the same, in the same order,
    and the set of passed ids has not lost a member.  Feature-add mode only
    appends: the stories it finds stay in place, unchanged. *)
Theorem task_list_only_advances :
  (∀ e w doc, read_prd w = Some doc →
     ∃ doc', read_prd (final_state (iteration e w)) = Some doc' ∧
             doc_advances doc doc' ∧ story_ids doc' = story_ids doc ∧
             passed_ids (PRD.userStories doc) ⊆ passed_ids (PRD.userStories doc')) ∧
  (∀ fuel env w doc, read_prd w = Some doc →
     ∃ doc', read_prd (final_state (while_loop fuel env w)) = Some doc' ∧
             doc_advances doc doc' ∧ story_ids doc' = story_ids doc ∧
             passed_ids (PRD.userStories doc) ⊆ passed_ids (PRD.userStories doc')) ∧
  (∀ env w doc, read_prd w = Some doc →
     ∃ doc', read_prd (final_state (ralph env w)) = Some doc' ∧
             doc_advances doc doc' ∧ story_ids doc' = story_ids doc ∧
             passed_ids (PRD.userStories doc) ⊆ passed_ids (PRD.userStories doc')) ∧
  (∀ newStories doc,
     PRD.userStories (addFeature_push newStories doc) = PRD.userStories doc ++ newStories ∧
     passed_ids (PRD.userStories doc) ⊆
       passed_ids (PRD.userStories (addFeature_push newStories doc))).
Proof.
  split_and!.
  - intros e w doc Hdoc.
    destruct (iteration_advances e w doc Hdoc) as (doc' & Hdoc' & Hadv).
    exists doc'. split_and!; try done.
    + by apply advances_story_ids.
    + apply advances_passed_ids, Hadv.
  - intros fuel env w doc Hdoc.
    destruct (while_loop_advances env fuel w doc Hdoc) as (doc' & Hdoc' & Hadv).
    exists doc'. split_and!; try done.
    + by apply advances_story_ids.
    + apply advances_passed_ids, Hadv.
  - intros env w doc Hdoc.
    destruct (ralph_advances env MAX_ITERATIONS w doc Hdoc) as (doc' & Hdoc' & Hadv).
    exists doc'. split_and!; try done.
    + by apply advances_story_ids.
    + apply advances_passed_ids, Hadv.
  - intros newStories doc. split; [done |]. simpl.
    unfold passed_ids. rewrite filter_app, fmap_app, list_to_set_app_L.
  apply union_subseteq_l.
Qed.

(** The theorem at a run on the list 1 (passed), 2, 3 in which every command
    succeeds: story 1 is still passed at the end. *)
Lemma task_list_only_advances_witness :
  ∃ doc', read_prd (final_state (ralph env_all_ok (sample_dir stories_1_2_3))) = Some doc' ∧
          story_ids doc' = [1; 2; 3] ∧
          1 ∈ passed_ids (PRD.userStories doc').
Proof.
  destruct task_list_only_advances as (_ & _ & H & _).
  destruct (H env_all_ok (sample_dir stories_1_2_3) (sample_prd stories_1_2_3) eq_refl)
    as (doc' & Hdoc' & _ & Hids & Hsub).
  exists doc'. split_and!; [done | by rewrite Hids |].
  apply Hsub. unfold passed_ids. simpl. set_solver.
Defined.

(** ** The iteration budget *)

Section Budget.
Implicit Types (l : list UserStory.t) (doc : PRD.t) (w : State).

Lemma COMPLETED_incomplete doc : (COMPLETED doc + incomplete doc = TOTAL doc)%nat.
Proof.
  unfold COMPLETED, incomplete, TOTAL, jq_select_incomplete.
  induction (PRD.userStories doc) as [|s l IH]; [done |].
  rewrite !filter_cons. destruct (UserStory.passes s) eqn:Hs.
  - rewrite decide_True, decide_False by done. simpl. lia.
  - rewrite decide_False, decide_True by done. simpl. lia.
Qed.

Lemma NEXT_STORY_None_incomplete doc : NEXT_STORY doc = None ↔ incomplete doc = O.
Proof.
  unfold NEXT_STORY, head_n_1, incomplete.
  destruct (jq_select_incomplete doc); simpl; split; intros; by simplify_eq.
Qed.

(** With distinct ids, marking completes at most one story. *)
Lemma pending_after_mark target l :
  NoDup (UserStory.id <$> l) →
  (length (filter (λ s, UserStory.passes s = false) l) ≤
   S (length (filter (λ s, UserStory.passes s = false) (mark_story target <$> l))))%nat.
Proof.
  induction l as [|x l IH]; [simpl; lia |].
  rewrite fmap_cons. intros [Hx Hl]%NoDup_cons. rewrite !fmap_cons, !filter_cons.
  destruct (decide (UserStory.id x = target)) as [Heq|Hne].
  - assert (mark_story target <$> l = l) as ->.
    { apply map_mark_absent, Forall_forall. intros s Hs Hid. apply Hx.
      rewrite Heq, <- Hid. by apply list_elem_of_fmap_2. }
    repeat case_decide; simpl; lia.
  - rewrite (mark_story_miss target x Hne). specialize (IH Hl).
    case_decide; simpl; lia.
Qed.

Lemma incomplete_after_mark target doc :
  NoDup (story_ids doc) →
  (incomplete doc ≤ S (incomplete (jq_mark_complete target doc)))%nat.
Proof. apply pending_after_mark. Qed.

Lemma story_ids_mark target doc :
  story_ids (jq_mark_complete target doc) = story_ids doc.
Proof. apply advances_story_ids, doc_advances_mark. Qed.

(** The counter never passes the cap. *)
Lemma while_loop_counter env fuel : ∀ w,
  (ITERATION w ≤ MAX_ITERATIONS)%nat →
  (ITERATION (final_state (while_loop fuel env w)) ≤ MAX_ITERATIONS)%nat.
Proof.
  induction fuel as [|fuel IH]; intros w Hle; simpl.
  - by case_decide.
  - case_decide as Hlt; [| done].
    pose proof (iteration_counter (env (S (ITERATION w))) w) as Hit.
    destruct (iteration (env (S (ITERATION w))) w) as [[] w1 | c w1]; simpl in *.
    + apply IH. lia.
    + lia.
    + lia.
Qed.

(** The loop is left before the fuel of the model runs out. *)
Lemma while_loop_fuel env fuel : ∀ w,
  (MAX_ITERATIONS - ITERATION w ≤ fuel)%nat →
  ∀ w', while_loop fuel env w ≠ Ret None w'.
Proof.
  induction fuel as [|fuel IH]; intros w Hfuel w'; simpl.
  - case_decide; [lia | done].
  - case_decide as Hlt; [| done].
    pose proof (iteration_counter (env (S (ITERATION w))) w) as Hit.
    destruct (iteration (env (S (ITERATION w))) w) as [[] w1 | c w1]; simpl in *;
      [| done | done].
    apply IH. lia.
Qed.

Lemma while_loop_no_exit env :
  (∀ n, no_fatal_status (env n)) →
  ∀ fuel w, ∃ r w', while_loop fuel env w = Ret r w'.
Proof.
  intros Henv fuel. induction fuel as [|fuel IH]; intros w; simpl.
  - case_decide; eauto.
  - case_decide; [| eauto].
    destruct (iteration_no_exit (env (S (ITERATION w))) w (Henv _)) as (flow & w1 & ->).
    destruct flow; eauto.
Qed.

Lemma iteration_exit_status e w c w' : iteration e w = Exit c w' → c ≠ O.
Proof.
  destruct w as [pj tmp cs it out], e as [ps ok clean aa fc fp rw mv ap cc].
  iteration_unfold. intros H.
  repeat (case_match; simplify_eq/=); done.
Qed.

Lemma while_loop_exit_status env fuel : ∀ w c w',
  while_loop fuel env w = Exit c w' → c ≠ O.
Proof.
  induction fuel as [|fuel IH]; intros w c w'; simpl.
  - by case_decide.
  - case_decide; [| done].
    destruct (iteration (env (S (ITERATION w))) w) as [[] w1 | c1 w1] eqn:Hit;
      [apply IH | done |].
    intros [= <- <-]. by eapply iteration_exit_status.
Qed.

(** With distinct ids and more stories to do than iterations left, the
    loop cannot end by [break]: it ends on the cap, stories remaining, or
    the script exits. *)
Lemma while_loop_budget env fuel : ∀ w doc,
  read_prd w = Some doc → NoDup (story_ids doc) →
  (MAX_ITERATIONS < ITERATION w + incomplete doc)%nat →
  (MAX_ITERATIONS - ITERATION w ≤ fuel)%nat →
  (ITERATION w ≤ MAX_ITERATIONS)%nat →
  match while_loop fuel env w with
  | Ret (Some ABORTED) w' =>
      ITERATION w' = MAX_ITERATIONS ∧
      ∃ doc', read_prd w' = Some doc' ∧ (0 < incomplete doc')%nat
  | Ret _ _ => False
  | Exit _ _ => True
  end.
Proof.
  induction fuel as [|fuel IH]; intros w doc Hdoc Hnd Hinc Hfuel Hle; simpl.
  - rewrite decide_False by lia. split; [lia |]. exists doc. split; [done | lia].
  - case_decide as Hlt; [| split; [lia | exists doc; split; [done | lia]]].
    destruct (iteration_effect (env (S (ITERATION w))) w doc Hdoc)
      as (doc1 & Hdoc1 & Hcase & _ & Hflow).
    pose proof (iteration_counter (env (S (ITERATION w))) w) as Hit.
    destruct (NEXT_STORY doc) as [s|] eqn:Hnext;
      [| apply NEXT_STORY_None_incomplete in Hnext; lia].
    destruct (iteration (env (S (ITERATION w))) w) as [[] w1 | c w1]; simpl in *;
      [| by destruct (Hflow w1) | done].
    apply (IH w1 doc1 Hdoc1); [| | lia | lia].
    + destruct Hcase as [-> | (s' & _ & ->)]; [done | by rewrite story_ids_mark].
    + destruct Hcase as [-> | (s' & _ & ->)]; [lia |].
      pose proof (incomplete_after_mark (UserStory.id s') doc Hnd). lia.
Qed.
End Budget.

Lemma ralph_unfold env w doc :
  read_prd w = Some doc →
  ralph env w =
  match while_loop MAX_ITERATIONS env (start w) with
  | Ret (Some e) w' => final_summary e w'
  | Ret None w' => Ret None w'
  | Exit c w' => Exit c w'
  end.
Proof.
  intros Hdoc. unfold ralph, ralph_with_fuel.
  assert (prd_json (start w) = Some (Whole doc)) as -> by by apply read_prd_Some.
  reflexivity.
Qed.

Lemma ralph_budget_cases env w doc :
  read_prd w = Some doc → NoDup (story_ids doc) →
  (MAX_ITERATIONS < incomplete doc)%nat →
  (∃ c w', ralph env w = Exit c w' ∧ c ≠ O) ∨ aborted_at_cap env w.
Proof.
  intros Hdoc Hnd Hinc. unfold aborted_at_cap. rewrite (ralph_unfold env w doc Hdoc).
  assert (ITERATION (start w) = O) as Hzero by done.
  pose proof (while_loop_budget env MAX_ITERATIONS (start w) doc Hdoc Hnd
                ltac:(lia) ltac:(lia) ltac:(lia)) as Hrun.
  destruct (while_loop MAX_ITERATIONS env (start w)) as [[[]|] w' | c w'] eqn:Hloop.
  - done.
  - destruct Hrun as (Hit & doc' & Hdoc' & Hleft).
    right. unfold final_summary. rewrite Hdoc'.
    eexists _, w', doc'. split; [reflexivity |]. simpl.
    pose proof (COMPLETED_incomplete doc') as Hsum.
    split_and!; try done.
    + unfold stories_remaining. simpl. lia.
    + apply bool_decide_eq_false. lia.
  - done.
  - left. exists c, w'. split; [done |]. by eapply while_loop_exit_status.
Qed.

(** No run of the script takes the counter beyond 50, whatever the
    environment and whatever [prd.json] holds. *)
Lemma ralph_counter env w :
  (ITERATION (final_state (ralph env w)) ≤ MAX_ITERATIONS)%nat.
Proof.
  unfold ralph, ralph_with_fuel.
  destruct (prd_json (start w)) as [f|] eqn:Hfile; [| simpl; lia].
  assert (ITERATION (start w) = O) as Hzero by done.
  pose proof (while_loop_counter env MAX_ITERATIONS (start w) ltac:(lia)) as Hle.
  destruct (while_loop MAX_ITERATIONS env (start w)) as [[e|] w' | c w'] eqn:Hloop;
    try exact Hle.
  unfold final_summary. by destruct (read_prd w').
Qed.

(** The loop beyond the prompt assignment, in environments that the script
    as written does not meet.  From a task list with distinct ids and more
    than 50 stories to do, the loop is never left by [break]: either a
    command watched by [set -e] fails and the script exits with that
    command's status, which is not 0, or the loop ends on the cap with the
    counter at 50 and the summary gives the completed and total counts of
    the task list it leaves.  When no watched command fails, the second case
    is the one that occurs. *)
Lemma budget_beyond_prompt (env : nat → IterEnv) (w : State) :
  ∀ doc, read_prd w = Some doc → NoDup (story_ids doc) →
    (MAX_ITERATIONS < incomplete doc)%nat →
    ((∃ c w', ralph env w = Exit c w' ∧ c ≠ O) ∨ aborted_at_cap env w) ∧
    ((∀ n, no_fatal_status (env n)) → aborted_at_cap env w).
Proof.
  intros doc Hdoc Hnd Hinc.
  pose proof (ralph_budget_cases env w doc Hdoc Hnd Hinc) as Hcases.
  split; [exact Hcases |]. intros Henv.
  destruct Hcases as [(c & w' & Hexit & _) | Hab]; [| exact Hab].
  rewrite (ralph_unfold env w doc Hdoc) in Hexit.
  destruct (while_loop_no_exit env Henv MAX_ITERATIONS (start w)) as (r & w1 & Hrun).
  rewrite Hrun in Hexit. destruct r as [e|]; [| done].
  unfold final_summary in Hexit. by destruct (read_prd w1).
Qed.

(** ** Resuming after a recorded story *)

Section Resume.
Implicit Types (s x : UserStory.t) (l : list UserStory.t) (doc : PRD.t) (w : State).

(** Once the selected story is marked, everything up to its id has passed. *)
Lemma done_upto_after_mark doc s :
  ids_increasing (PRD.userStories doc) → NEXT_STORY doc = Some s →
  done_upto (UserStory.id s) (jq_mark_complete (UserStory.id s) doc).
Proof.
  intros Hinc Hnext. apply head_filter_pending_Some in Hnext as (d & r & Hl & _ & Hd).
  unfold done_upto. rewrite userStories_mark, Hl. rewrite Hl in Hinc.
  destruct (ids_increasing_split _ _ _ Hinc) as [_ Hr].
  rewrite fmap_app, fmap_cons, Forall_app, Forall_cons. split_and!.
  - apply Forall_fmap, Forall_forall. intros x Hx _.
    rewrite Forall_forall in Hd. specialize (Hd x Hx).
    rewrite mark_story_passes. by case_decide.
  - intros _. rewrite mark_story_passes. by rewrite decide_True.
  - apply Forall_fmap, Forall_forall. intros x Hx. rewrite Forall_forall in Hr.
    specialize (Hr x Hx). simpl. rewrite mark_story_id. lia.
Qed.

Lemma done_upto_advances k doc doc' :
  doc_advances doc doc' → done_upto k doc → done_upto k doc'.
Proof.
  intros (_ & _ & _ & _ & Hadv). unfold done_upto.
  induction Hadv as [|x x' l l' (Hid & _ & _ & _ & Hp) _ IH]; [done |].
  rewrite !Forall_cons. intros [Hx Hl]. split; [| by apply IH].
  rewrite Hid. auto.
Qed.

Lemma done_upto_next k doc s :
  done_upto k doc → NEXT_STORY doc = Some s → k < UserStory.id s.
Proof.
  intros Hdone Hnext. apply head_filter_pending_Some in Hnext as (d & r & Hl & Hs & _).
  unfold done_upto in Hdone. rewrite Hl, Forall_app, Forall_cons in Hdone.
  destruct Hdone as (_ & Hx & _).
  destruct (decide (UserStory.id s ≤ k)) as [Hle|]; [| lia].
  specialize (Hx Hle). congruence.
Qed.

Lemma iteration_selected k e w doc :
  read_prd w = Some doc → done_upto k doc →
  Forall (λ i, k < i) (selected_ids (output w)) →
  Forall (λ i, k < i) (selected_ids (output (final_state (iteration e w)))).
Proof.
  intros Hdoc Hdone Hout.
  destruct (iteration_effect e w doc Hdoc) as (_ & _ & _ & -> & _).
  rewrite Forall_app. split; [done |].
  destruct (NEXT_STORY doc) as [s|] eqn:Hnext; [| constructor].
  repeat constructor. by eapply done_upto_next.
Qed.

Lemma while_loop_selected k env fuel : ∀ w doc,
  read_prd w = Some doc → done_upto k doc →
  Forall (λ i, k < i) (selected_ids (output w)) →
  Forall (λ i, k < i) (selected_ids (output (final_state (while_loop fuel env w)))).
Proof.
  induction fuel as [|fuel IH]; intros w doc Hdoc Hdone Hout; simpl.
  - by case_decide.
  - case_decide; [| done].
    pose proof (iteration_selected k (env (S (ITERATION w))) w doc Hdoc Hdone Hout) as Hsel.
    destruct (iteration_advances (env (S (ITERATION w))) w doc Hdoc)
      as (doc1 & Hdoc1 & Hadv).
    destruct (iteration (env (S (ITERATION w))) w) as [[] w1 | c w1]; simpl in *;
      [| done | done].
    apply (IH w1 doc1); [done | by eapply done_upto_advances | done].
Qed.

Lemma ralph_selected k env w doc :
  read_prd w = Some doc → done_upto k doc →
  Forall (λ i, k < i) (selected_ids (output (final_state (ralph env w)))).
Proof.
  intros Hdoc Hdone. rewrite (ralph_unfold env w doc Hdoc).
  pose proof (while_loop_selected k env MAX_ITERATIONS (start w) doc Hdoc Hdone) as Hsel.
  specialize (Hsel ltac:(constructor)).
  destruct (while_loop MAX_ITERATIONS env (start w)) as [[e|] w' | c w']; simpl in *;
    [| done | done].
  unfold final_summary. by destruct (read_prd w').
Qed.
End Resume.

(** C9.  Let the ids increase along the task list and let [s] be the story
    the selector returns.  Once the recorder has marked [s], the selector
    applied to the persisted list returns a story with an id greater than
    that of [s], when it returns one; and in a run of the script started
    afresh in the directory the recorder left, whatever the environment,
    every story that any iteration selects has an id greater than that of
    [s], so [s] is not selected again. *)
Theorem resume_after_recording (doc : PRD.t) (s : UserStory.t) :
  ids_increasing (PRD.userStories doc) → NEXT_STORY doc = Some s →
  (∀ s', NEXT_STORY (jq_mark_complete (UserStory.id s) doc) = Some s' →
         UserStory.id s < UserStory.id s') ∧
  (∀ e w0 env, read_prd w0 = Some doc → rewrite e = RewriteOk → mv_status e = O →
     ∃ w1, progress_recorder e (UserStory.id s) w0 = Ret tt w1 ∧
           read_prd w1 = Some (jq_mark_complete (UserStory.id s) doc) ∧
           Forall (λ i, UserStory.id s < i)
                  (selected_ids (output (final_state (ralph env w1)))) ∧
           UserStory.id s ∉ selected_ids (output (final_state (ralph env w1)))).
Proof.
  intros Hinc Hnext. pose proof (done_upto_after_mark doc s Hinc Hnext) as Hdone. split.
  - intros s' Hs'. by eapply done_upto_next.
  - intros e w0 env Hdoc Hrw Hmv.
    rewrite (progress_recorder_ok e (UserStory.id s) w0 doc Hdoc Hrw Hmv).
    eexists. split; [reflexivity |]. split; [reflexivity |].
    match goal with |- context [ralph env ?w] =>
      pose proof (ralph_selected (UserStory.id s) env w _ eq_refl Hdone) as Hsel end.
    split; [exact Hsel |]. intros Hin. rewrite Forall_forall in Hsel.
    specialize (Hsel _ Hin). lia.
Qed.

(** The theorem at the list 1 (passed), 2, 3: after story 2 is recorded, the
    selector returns story 3. *)
Lemma resume_after_recording_witness :
  NEXT_STORY (jq_mark_complete 2 (sample_prd stories_1_2_3)) = Some (sample_story 3 false) ∧
  UserStory.id (sample_story 2 false) < UserStory.id (sample_story 3 false).
Proof.
  split; [reflexivity |].
  apply (proj1 (resume_after_recording (sample_prd stories_1_2_3) (sample_story 2 false)
                  ltac:(unfold ids_increasing; simpl; repeat constructor; lia) eq_refl)
           (sample_story 3 false)).
  reflexivity.
Defined.

(** ** Runs of the model

    The first three runs take the assignment of the prompt to succeed, which
    the script as written does not; the last one is a run of the script as
    written. *)

(** Two pending stories, the agent succeeds and changes files each time:
    both stories pass, there are two implementation commits and two update
    commits, and the loop ends by [break] in its third iteration. *)
Example scenario_two_stories :
  ∃ w', ralph env_all_ok (sample_dir (pending_stories 2))
        = Ret (Some (mkSummary DONE 3 2 2 true)) w' ∧
        read_prd w' = Some (sample_prd [sample_story 1 true; sample_story 2 true]) ∧
        message <$> commits w' =
          [FeatImplementStory 1 "story" 1 "Criterion 1; Criterion 2";
           ChoreMarkStory 1;
           FeatImplementStory 2 "story" 2 "Criterion 1; Criterion 2";
           ChoreMarkStory 2].
Proof. eexists. split; [by vm_compute | by split]. Qed.

(** The agent fails every time: 50 iterations on story 1, the loop ends on
    the cap, nothing is marked and nothing is committed. *)
Example scenario_agent_always_fails :
  ∃ w', ralph env_agent_fails (sample_dir (pending_stories 2))
        = Ret (Some (mkSummary ABORTED 50 0 2 false)) w' ∧
        read_prd w' = Some (sample_prd (pending_stories 2)) ∧
        commits w' = [] ∧
        selected_ids (output w') = replicate 50 1.
Proof. eexists. split; [by vm_compute | by split]. Qed.

(** The agent succeeds without changing a file: the story passes and the
    only commit is that of the update. *)
Example scenario_no_change :
  ∃ w', ralph env_no_change (sample_dir (pending_stories 1))
        = Ret (Some (mkSummary DONE 2 1 1 true)) w' ∧
        message <$> commits w' = [ChoreMarkStory 1].
Proof. eexists. split; [by vm_compute | done]. Qed.

(** The assignment of the prompt fails: the script exits in its first
    iteration with that status, before the agent is invoked. *)
Example scenario_prompt_fails :
  ∃ w', ralph env_prompt_fails (sample_dir (pending_stories 2)) = Exit 3 w' ∧
        ITERATION w' = 1%nat ∧ output w' = [IterationStory 1 1] ∧
        read_prd w' = Some (sample_prd (pending_stories 2)) ∧ commits w' = [].
Proof. eexists. split; [by vm_compute | by split_and!]. Qed.

(** * Further properties of the script *)

(** ** The script as written, and what the summary says *)

Section AsWritten.
Implicit Types (s x : UserStory.t) (l : list UserStory.t) (doc : PRD.t) (w : State).

Lemma iteration_break e w doc :
  read_prd w = Some doc → NEXT_STORY doc = None →
  iteration e w =
  Ret Break (echo AllStoriesComplete (set_ITERATION (S (ITERATION w)) w)).
Proof.
  intros Hdoc%read_prd_Some Hnext. destruct w as [pj tmp cs it out].
  simpl in Hdoc. subst pj. iteration_unfold. by rewrite Hnext.
Qed.

Lemma NEXT_STORY_pending doc s :
  NEXT_STORY doc = Some s → s ∈ PRD.userStories doc ∧ UserStory.passes s = false.
Proof.
  intros (d & r & Hl & Hs & _)%head_filter_pending_Some. split; [| done].
  rewrite Hl. set_solver.
Qed.

Lemma incomplete_0_all_passed doc :
  incomplete doc = O ↔ Forall (λ s, UserStory.passes s = true) (PRD.userStories doc).
Proof.
  rewrite <- NEXT_STORY_None_incomplete, NEXT_STORY_unfold.
  apply head_filter_pending_None.
Qed.

Lemma while_loop_S fuel env w :
  (ITERATION w < MAX_ITERATIONS)%nat →
  while_loop (S fuel) env w =
  match iteration (env (S (ITERATION w))) w with
  | Ret Continue w' => while_loop fuel env w'
  | Ret Break w' => Ret (Some DONE) w'
  | Exit c w' => Exit c w'
  end.
Proof. intros Hlt. simpl. by rewrite decide_True. Qed.

Lemma start_lt_cap w : (ITERATION (start w) < MAX_ITERATIONS)%nat.
Proof. unfold MAX_ITERATIONS. simpl. lia. Qed.

(** With a story pending, the script as written ends in its first
    iteration, at the assignment of the prompt. *)
Lemma ralph_exits_at_prompt env w doc s :
  as_written env → read_prd w = Some doc → NEXT_STORY doc = Some s →
  ralph env w =
  Exit CLAUDE_PROMPT_status
       (echo (IterationStory 1 (UserStory.id s)) (set_ITERATION 1 (start w))).
Proof.
  intros Henv Hdoc Hnext. rewrite (ralph_unfold env w doc Hdoc).
  change MAX_ITERATIONS with (S 49) at 1.
  rewrite (while_loop_S 49 env (start w) (start_lt_cap w)).
  change (ITERATION (start w)) with O.
  by rewrite (iteration_prompt_fails (env 1%nat) (start w) doc s 2 Hdoc Hnext (Henv 1%nat)).
Qed.

(** With nothing pending, every run ends by [break] in its first
    iteration. *)
Lemma ralph_nothing_pending env w doc :
  read_prd w = Some doc → NEXT_STORY doc = None →
  ralph env w =
  Ret (Some (mkSummary DONE 1 (TOTAL doc) (TOTAL doc) true))
      (echo AllStoriesComplete (set_ITERATION 1 (start w))).
Proof.
  intros Hdoc Hnext. rewrite (ralph_unfold env w doc Hdoc).
  change MAX_ITERATIONS with (S 49) at 1.
  rewrite (while_loop_S 49 env (start w) (start_lt_cap w)).
  change (ITERATION (start w)) with O.
  rewrite (iteration_break (env 1%nat) (start w) doc Hdoc Hnext).
  unfold final_summary.
  change (ITERATION (start w)) with O.
  assert (read_prd (echo AllStoriesComplete (set_ITERATION 1 (start w))) = Some doc)
    as -> by exact Hdoc.
  pose proof (COMPLETED_incomplete doc) as Hsum.
  apply NEXT_STORY_None_incomplete in Hnext.
  assert (COMPLETED doc = TOTAL doc) as -> by lia.
  by rewrite bool_decide_eq_true_2.
Qed.

Lemma not_agent_invoked_singleton (line : LogLine) :
  match line with ClaudeCompleted _ | ClaudeFailed _ => False | _ => True end →
  ¬ agent_invoked [line].
Proof.
  intros Hline (i & [Hin | Hin]);
    apply list_elem_of_singleton in Hin; by subst line.
Qed.

Lemma while_loop_DONE env fuel : ∀ w doc w',
  read_prd w = Some doc → while_loop fuel env w = Ret (Some DONE) w' →
  ∃ doc', read_prd w' = Some doc' ∧ NEXT_STORY doc' = None.
Proof.
  induction fuel as [|fuel IH]; intros w doc w' Hdoc; simpl.
  - by case_decide.
  - case_decide; [| done].
    destruct (iteration_effect (env (S (ITERATION w))) w doc Hdoc)
      as (doc1 & Hdoc1 & Hcase & _ & Hflow).
    destruct (iteration (env (S (ITERATION w))) w) as [[] w1 | c w1] eqn:Hit;
      simpl in Hdoc1; [by apply (IH w1 doc1) | | done].
    intros [= <-]. exists doc1. split; [done |].
    destruct (NEXT_STORY doc) as [s|] eqn:Hnext; [by destruct (Hflow w1) |].
    by destruct Hcase as [-> | (s & ? & _)].
Qed.
End AsWritten.

(** C2.  The script as written, started on a task list with more than 50
    stories to do: it selects the first pending story, fails at the
    assignment of its prompt and exits with status 3 in iteration 1; the
    task list is what it was, nothing is committed, and the run does not end
    on the cap with the counter at 50 and a summary.  (No run takes the
    counter beyond 50: see [ralph_counter].) *)
Theorem budget_run_ends_at_prompt (env : nat → IterEnv) (w : State) (doc : PRD.t) :
  as_written env → read_prd w = Some doc →
  (MAX_ITERATIONS < incomplete doc)%nat →
  (∃ s w',
     NEXT_STORY doc = Some s ∧
     ralph env w = Exit CLAUDE_PROMPT_status w' ∧
     ITERATION w' = 1%nat ∧ read_prd w' = Some doc ∧ commits w' = commits w) ∧
  ¬ aborted_at_cap env w.
Proof.
  intros Henv Hdoc Hinc.
  destruct (NEXT_STORY doc) as [s|] eqn:Hnext;
    [| apply NEXT_STORY_None_incomplete in Hnext; lia].
  pose proof (ralph_exits_at_prompt env w doc s Henv Hdoc Hnext) as Hrun. split.
  - eexists s, _. split; [done |]. split; [exact Hrun |]. by split_and!.
  - intros (r & w' & doc' & Hret & _). rewrite Hrun in Hret. discriminate Hret.
Qed.

(** The theorem at 51 pending stories with ids 1 to 51, every command other
    than the assignment of the prompt succeeding. *)
Lemma budget_run_ends_at_prompt_witness :
  (∃ s w', NEXT_STORY (sample_prd (pending_stories 51)) = Some s ∧
           ralph env_prompt_fails (sample_dir (pending_stories 51)) = Exit 3 w' ∧
           ITERATION w' = 1%nat ∧
           read_prd w' = Some (sample_prd (pending_stories 51)) ∧
           commits w' = []) ∧
  ¬ aborted_at_cap env_prompt_fails (sample_dir (pending_stories 51)).
Proof.
  apply (budget_run_ends_at_prompt env_prompt_fails (sample_dir (pending_stories 51))
           (sample_prd (pending_stories 51))).
  - intros n. reflexivity.
  - reflexivity.
  - vm_compute. lia.
Defined.





(** X1.  A whole run of the script as written on a readable task list, in
    every environment it can meet.  If no story is pending, the first
    iteration logs "All stories complete", the loop is left by [break] and
    the summary reports one iteration and all stories implemented.  If a
    story is pending, the first one is announced and the script exits with
    status 3.  Either way the counter ends at 1, the agent is not invoked,
    and [prd.json], [prd.json.tmp] and the history are what they were. *)
Theorem run_as_written (env : nat → IterEnv) (w : State) (doc : PRD.t) :
  as_written env → read_prd w = Some doc →
  ∃ w',
    final_state (ralph env w) = w' ∧
    ITERATION w' = 1%nat ∧ ¬ agent_invoked (output w') ∧
    prd_json w' = prd_json w ∧ prd_json_tmp w' = prd_json_tmp w ∧
    commits w' = commits w ∧
    match NEXT_STORY doc with
    | None =>
        ralph env w = Ret (Some (mkSummary DONE 1 (TOTAL doc) (TOTAL doc) true)) w' ∧
        output w' = [AllStoriesComplete]
    | Some s =>
        ralph env w = Exit CLAUDE_PROMPT_status w' ∧
        output w' = [IterationStory 1 (UserStory.id s)]
    end.
Proof.
  intros Henv Hdoc. destruct (NEXT_STORY doc) as [s|] eqn:Hnext.
  - rewrite (ralph_exits_at_prompt env w doc s Henv Hdoc Hnext).
    eexists. split; [reflexivity |]. split_and!; try done.
    by apply not_agent_invoked_singleton.
  - rewrite (ralph_nothing_pending env w doc Hdoc Hnext).
    eexists. split; [reflexivity |]. split_and!; try done.
    by apply not_agent_invoked_singleton.
Qed.

(** The theorem at a task list in which every story has passed. *)
Lemma run_as_written_witness :
  ∃ w', ralph env_prompt_fails (sample_dir stories_all_passed)
        = Ret (Some (mkSummary DONE 1 2 2 true)) w' ∧
        output w' = [AllStoriesComplete] ∧ commits w' = [].
Proof.
  destruct (run_as_written env_prompt_fails (sample_dir stories_all_passed)
              (sample_prd stories_all_passed))
    as (w' & _ & _ & _ & _ & _ & Hc & Hrun & Hout).
  - intros n. reflexivity.
  - reflexivity.
  - by exists w'.
Defined.

(** X4.  Whenever the script, started on a readable task list, prints its
    summary, whatever the environment: the task list it leaves is readable,
    completed plus pending stories make the total, the summary reports all
    stories as implemented exactly when every story of that list has passed,
    which is exactly when the selector returns nothing on it; and a loop left
    by [break] always gives that report. *)
Theorem summary_reflects_task_list (env : nat → IterEnv) (w : State) (doc : PRD.t)
    (r : Summary) (w' : State) :
  read_prd w = Some doc →
  ralph env w = Ret (Some r) w' →
  ∃ doc',
    read_prd w' = Some doc' ∧
    total_iterations r = ITERATION w' ∧
    stories_total r = length (PRD.userStories doc') ∧
    (stories_completed r + incomplete doc')%nat = stories_total r ∧
    stories_remaining r = incomplete doc' ∧
    (all_implemented r = true ↔
     Forall (λ s, UserStory.passes s = true) (PRD.userStories doc')) ∧
    (all_implemented r = true ↔ NEXT_STORY doc' = None) ∧
    (ended r = DONE → all_implemented r = true).
Proof.
  intros Hdoc Hrun. rewrite (ralph_unfold env w doc Hdoc) in Hrun.
  destruct (while_loop MAX_ITERATIONS env (start w)) as [[e|] w1 | c w1] eqn:Hloop;
    [| done | done].
  unfold final_summary in Hrun. destruct (read_prd w1) as [doc'|] eqn:Hdoc'; [| done].
  injection Hrun as <- <-. exists doc'. simpl.
  pose proof (COMPLETED_incomplete doc') as Hsum.
  assert (bool_decide (COMPLETED doc' = TOTAL doc') = true ↔ incomplete doc' = O) as Hall.
  { rewrite bool_decide_eq_true. lia. }
  split_and!; try done.
  - unfold stories_remaining. simpl. lia.
  - by rewrite Hall, incomplete_0_all_passed.
  - by rewrite Hall, NEXT_STORY_None_incomplete.
  - intros ->. apply Hall, NEXT_STORY_None_incomplete.
    destruct (while_loop_DONE env MAX_ITERATIONS (start w) doc w1 Hdoc Hloop)
      as (doc1 & Hdoc1 & Hnone).
    by simplify_eq.
Qed.

(** The theorem at a run of the script as written on a task list in which
    every story has passed. *)
Lemma summary_reflects_task_list_witness :
  ∃ r w', ralph env_prompt_fails (sample_dir stories_all_passed) = Ret (Some r) w' ∧
          stories_remaining r = 0%nat ∧ all_implemented r = true.
Proof.
  eexists _, _. split; [by vm_compute |].
  match goal with |- context [stories_remaining ?r] =>
    match goal with |- context [all_implemented r = _] =>
      destruct (summary_reflects_task_list env_prompt_fails (sample_dir stories_all_passed)
                  (sample_prd stories_all_passed) r _ eq_refl ltac:(by vm_compute))
        as (doc' & Hdoc' & _ & _ & _ & Hrem & _ & _ & Hdone)
    end
  end.
  split; [| by apply Hdone]. rewrite Hrem. vm_compute in Hdoc'. injection Hdoc' as <-.
  reflexivity.
Defined.

(** ** What a run selects and commits *)

Section RunLog.
Implicit Types (s x : UserStory.t) (l : list UserStory.t) (doc : PRD.t) (w : State).

Lemma pending_id_first doc s : NEXT_STORY doc = Some s → pending_id doc (UserStory.id s).
Proof. intros [Hin Hs]%NEXT_STORY_pending. by exists s. Qed.

(** A story that is pending now was pending before. *)
Lemma pending_id_advances doc0 doc i :
  doc_advances doc0 doc → pending_id doc i → pending_id doc0 i.
Proof.
  intros (_ & _ & _ & _ & Hadv) (s & Hin & Hid & Hs).
  apply list_elem_of_lookup in Hin as [n Hn].
  destruct (Forall2_lookup_r _ _ _ _ _ Hadv Hn) as (s0 & Hn0 & Hid0 & _ & _ & _ & Hp).
  exists s0. split_and!.
  - by eapply list_elem_of_lookup_2.
  - congruence.
  - destruct (UserStory.passes s0); [| done]. specialize (Hp eq_refl). congruence.
Qed.

(** The commits and the announcement of one iteration. *)
Lemma iteration_log e w doc :
  read_prd w = Some doc →
  ∃ new,
    commits (final_state (iteration e w)) = commits w ++ new ∧
    Forall (λ c, ∃ s, NEXT_STORY doc = Some s ∧ commit_story_id c = UserStory.id s ∧
                      (is_feat_commit c → recorded_prd c = Some (Whole doc))) new.
Proof.
  intros Hdoc%read_prd_Some.
  destruct w as [pj tmp cs it out], e as [ps ok clean aa fc fp rw mv ap cc].
  simpl in Hdoc. subst pj. iteration_unfold.
  destruct (NEXT_STORY doc) as [s|] eqn:Hnext; simpl;
    [| exists nil; split; [by rewrite app_nil_r | constructor]].
  repeat (case_match; simplify_eq/=);
    rewrite <- ?app_assoc; simpl;
    first [ exists nil; split; [by rewrite app_nil_r | constructor]
          | eexists; split; [reflexivity |];
            repeat (constructor;
                    [exists s; split_and!;
                     [done | done | first [done | by intros []]] |]);
            constructor ].
Qed.

(** The commits a loop adds name stories it announced, and the stories it
    announces were pending in the task list [doc0] it started from. *)
Lemma while_loop_log env doc0 fuel : ∀ w doc,
  read_prd w = Some doc → doc_advances doc0 doc →
  ∃ new more,
    commits (final_state (while_loop fuel env w)) = commits w ++ new ∧
    selected_ids (output (final_state (while_loop fuel env w))) =
      selected_ids (output w) ++ more ∧
    Forall (pending_id doc0) more ∧
    Forall (λ c, commit_story_id c ∈ more ∧
                 (is_feat_commit c →
                  ∃ d, recorded_prd c = Some (Whole d) ∧
                       pending_id d (commit_story_id c))) new.
Proof.
  induction fuel as [|fuel IH]; intros w doc Hdoc Hadv; simpl.
  - exists nil, nil. rewrite !app_nil_r. by case_decide.
  - case_decide; [| exists nil, nil; by rewrite !app_nil_r].
    destruct (iteration_log (env (S (ITERATION w))) w doc Hdoc) as (new1 & Hc1 & Hnew1).
    destruct (iteration_effect (env (S (ITERATION w))) w doc Hdoc)
      as (doc1 & Hdoc1 & _ & Hsel1 & _).
    destruct (iteration_advances (env (S (ITERATION w))) w doc Hdoc)
      as (doc1' & Hdoc1' & Hadv1).
    assert (doc1' = doc1) as -> by congruence.
    set (more1 := match NEXT_STORY doc with Some s => [UserStory.id s] | None => [] end)
      in *.
    assert (Forall (pending_id doc0) more1) as Hmore1.
    { unfold more1. destruct (NEXT_STORY doc) as [s|] eqn:Hnext; [| constructor].
      repeat constructor. eapply pending_id_advances; [done |]. by apply pending_id_first. }
    assert (Forall (λ c, commit_story_id c ∈ more1 ∧
                         (is_feat_commit c →
                          ∃ d, recorded_prd c = Some (Whole d) ∧
                               pending_id d (commit_story_id c))) new1) as Hnew1'.
    { eapply Forall_impl; [exact Hnew1 |]. intros c (s & Hnext & Hid & Hrec). split.
      - unfold more1. rewrite Hnext, Hid. set_solver.
      - intros Hfeat. exists doc. split; [by apply Hrec |].
        rewrite Hid. by apply pending_id_first. }
    destruct (iteration (env (S (ITERATION w))) w) as [[] w1 | c w1]; simpl in *.
    + destruct (IH w1 doc1 Hdoc1) as (new & more & Hc & Hsel & Hmore & Hnew);
        [by eapply doc_advances_trans |].
      exists (new1 ++ new), (more1 ++ more).
      rewrite Hc, Hc1, Hsel, Hsel1, !app_assoc. split_and!; try done.
      * by apply Forall_app.
      * apply Forall_app. split.
        -- eapply Forall_impl; [exact Hnew1' |]. intros c [Hin Hrec].
           split; [| done]. set_solver.
        -- eapply Forall_impl; [exact Hnew |]. intros c [Hin Hrec].
           split; [| done]. set_solver.
    + by exists new1, more1.
    + by exists new1, more1.
Qed.

Lemma ralph_log env w doc :
  read_prd w = Some doc →
  ∃ new,
    commits (final_state (ralph env w)) = commits w ++ new ∧
    Forall (pending_id doc) (selected_ids (output (final_state (ralph env w)))) ∧
    Forall (λ c, commit_story_id c ∈ selected_ids (output (final_state (ralph env w))) ∧
                 (is_feat_commit c →
                  ∃ d, recorded_prd c = Some (Whole d) ∧
                       pending_id d (commit_story_id c))) new.
Proof.
  intros Hdoc.
  destruct (while_loop_log env doc MAX_ITERATIONS (start w) doc Hdoc
              (doc_advances_refl doc)) as (new & more & Hc & Hsel & Hmore & Hnew).
  assert (final_state (ralph env w) = final_state (while_loop MAX_ITERATIONS env (start w)))
    as ->.
  { rewrite (ralph_unfold env w doc Hdoc).
    destruct (while_loop MAX_ITERATIONS env (start w)) as [[e|] w1 | c w1];
      simpl; try done.
    unfold final_summary. by destruct (read_prd w1). }
  assert (selected_ids (output (start w)) = []) as Hnil by done.
  assert (commits (start w) = commits w) as Hcs by done.
  rewrite Hnil, app_nil_l in Hsel. rewrite Hcs in Hc. rewrite Hsel. by exists new.
Qed.
End RunLog.

(** X6.  Whatever the environment, every story a run of the script selects
    is one that was pending in the task list the run started from: a story
    that has passed is never handed to the agent again. *)
Theorem selects_only_pending (env : nat → IterEnv) (w : State) (doc : PRD.t) :
  read_prd w = Some doc →
  Forall (pending_id doc) (selected_ids (output (final_state (ralph env w)))).
Proof. intros Hdoc. by destruct (ralph_log env w doc Hdoc) as (new & _ & H & _). Qed.

(** The theorem at a run on the list 1 (passed), 2, 3: the passed story 1 is
    not among the selected ones. *)
Lemma selects_only_pending_witness :
  1 ∉ selected_ids (output (final_state (ralph env_all_ok (sample_dir stories_1_2_3)))).
Proof.
  pose proof (selects_only_pending env_all_ok (sample_dir stories_1_2_3)
                (sample_prd stories_1_2_3) eq_refl) as H.
  rewrite Forall_forall in H. intros Hin.
  destruct (H 1 Hin) as (s & Hs & Hid & Hp).
  simpl in Hs. unfold stories_1_2_3 in Hs.
  repeat (apply elem_of_cons in Hs as [-> | Hs]); simpl in *; try done.
  by apply elem_of_nil in Hs.
Defined.



(** ** The order of selection *)

Section Order.
Implicit Types (s x : UserStory.t) (l : list UserStory.t) (doc : PRD.t) (w : State).

Lemma done_below_selected doc s :
  ids_increasing (PRD.userStories doc) → NEXT_STORY doc = Some s →
  done_below (UserStory.id s) doc.
Proof.
  intros Hinc (d & r & Hl & _ & Hd)%head_filter_pending_Some.
  unfold done_below. rewrite Hl in Hinc |- *.
  destruct (ids_increasing_split _ _ _ Hinc) as [_ Hr].
  rewrite Forall_app, Forall_cons. split_and!.
  - eapply Forall_impl; [exact Hd |]. auto.
  - lia.
  - eapply Forall_impl; [exact Hr |]. simpl. intros x Hx. lia.
Qed.

Lemma done_below_advances k doc doc' :
  doc_advances doc doc' → done_below k doc → done_below k doc'.
Proof.
  intros (_ & _ & _ & _ & Hadv). unfold done_below.
  induction Hadv as [|x x' l l' (Hid & _ & _ & _ & Hp) _ IH]; [done |].
  rewrite !Forall_cons. intros [Hx Hl]. split; [| by apply IH].
  rewrite Hid. auto.
Qed.

Lemma done_below_next k doc s :
  done_below k doc → NEXT_STORY doc = Some s → k ≤ UserStory.id s.
Proof.
  intros Hdone [Hin Hs]%NEXT_STORY_pending.
  unfold done_below in Hdone. rewrite Forall_forall in Hdone.
  destruct (decide (UserStory.id s < k)) as [Hlt|]; [| lia].
  specialize (Hdone s Hin Hlt). congruence.
Qed.

Lemma ids_increasing_advances doc doc' :
  doc_advances doc doc' →
  ids_increasing (PRD.userStories doc) → ids_increasing (PRD.userStories doc').
Proof.
  intros Hadv. unfold ids_increasing.
  pose proof (advances_story_ids doc doc' Hadv) as Hids. unfold story_ids in Hids.
  by rewrite Hids.
Qed.

Lemma while_loop_order env fuel : ∀ w doc,
  read_prd w = Some doc → ids_increasing (PRD.userStories doc) →
  Forall (λ i, done_below i doc) (selected_ids (output w)) →
  StronglySorted Z.le (selected_ids (output w)) →
  StronglySorted Z.le (selected_ids (output (final_state (while_loop fuel env w)))).
Proof.
  induction fuel as [|fuel IH]; intros w doc Hdoc Hinc Hbelow Hsorted; simpl.
  - by case_decide.
  - case_decide; [| done].
    destruct (iteration_effect (env (S (ITERATION w))) w doc Hdoc)
      as (doc1 & Hdoc1 & _ & Hsel1 & _).
    destruct (iteration_advances (env (S (ITERATION w))) w doc Hdoc)
      as (doc1' & Hdoc1' & Hadv1).
    assert (doc1' = doc1) as -> by congruence.
    assert (StronglySorted Z.le
              (selected_ids (output (final_state (iteration (env (S (ITERATION w))) w))))
            ∧ Forall (λ i, done_below i doc1)
                (selected_ids (output (final_state (iteration (env (S (ITERATION w))) w)))))
      as [Hsorted1 Hbelow1].
    { rewrite Hsel1. destruct (NEXT_STORY doc) as [s|] eqn:Hnext.
      - split.
        + apply StronglySorted_app_2; [| done | repeat constructor].
          intros i j Hi ->%list_elem_of_singleton.
          rewrite Forall_forall in Hbelow.
          exact (done_below_next i doc s (Hbelow i Hi) Hnext).
        + apply Forall_app. split.
          * eapply Forall_impl; [exact Hbelow |]. intros i. by apply done_below_advances.
          * repeat constructor. eapply done_below_advances; [done |].
            by apply done_below_selected.
      - rewrite app_nil_r. split; [done |].
        eapply Forall_impl; [exact Hbelow |]. intros i. by apply done_below_advances. }
    destruct (iteration (env (S (ITERATION w))) w) as [[] w1 | c w1]; simpl in *;
      [| done | done].
    apply (IH w1 doc1); [done | by eapply ids_increasing_advances | done | done].
Qed.
End Order.

(** X8.  When the ids increase along the task list, the ids of the stories
    a run selects, iteration after iteration, never decrease, whatever the
    environment: a story is selected again only while it is the latest one,
    and the loop never goes back to a story with a smaller id. *)
Theorem selection_never_goes_back (env : nat → IterEnv) (w : State) (doc : PRD.t) :
  read_prd w = Some doc → ids_increasing (PRD.userStories doc) →
  StronglySorted Z.le (selected_ids (output (final_state (ralph env w)))).
Proof.
  intros Hdoc Hinc.
  pose proof (while_loop_order env MAX_ITERATIONS (start w) doc Hdoc Hinc
                ltac:(constructor) ltac:(constructor)) as Hsorted.
  rewrite (ralph_unfold env w doc Hdoc).
  destruct (while_loop MAX_ITERATIONS env (start w)) as [[e|] w1 | c w1];
    simpl in *; try done.
  unfold final_summary. by destruct (read_prd w1).
Qed.

(** The theorem at a run on the list 1 (passed), 2, 3 in which the agent
    fails on every odd iteration. *)
Lemma selection_never_goes_back_witness :
  StronglySorted Z.le
    (selected_ids (output (final_state
       (ralph (λ n, all_ok (Nat.even n) false) (sample_dir stories_1_2_3))))).
Proof.
  apply (selection_never_goes_back _ (sample_dir stories_1_2_3) (sample_prd stories_1_2_3)).
  - reflexivity.
  - unfold ids_increasing. simpl. repeat constructor; lia.
Defined.

(** * Properties of [create-app.ts] *)

(** ** [parseArgs] *)

Section ParseArgs.
Implicit Types (args pre rest : list string) (r : option string) (v : string).

(** Arguments without the flag are passed over. *)
Lemma parseArgs_loop_skip pre rest r :
  "--add-feature" ∉ pre →
  parseArgs_loop (pre ++ rest) r = parseArgs_loop rest r.
Proof.
  induction pre as [|a pre IH]; [done |].
  intros [Ha Hpre]%not_elem_of_cons. simpl.
  rewrite decide_False by done. by apply IH.
Qed.

Lemma parseArgs_loop_pair v rest r :
  v ≠ "" →
  parseArgs_loop ("--add-feature" :: v :: rest) r = parseArgs_loop rest (Some v).
Proof. intros Hv. simpl. by rewrite decide_False. Qed.

(** What the loop returns is what it started with, or a non-empty argument
    that directly follows an occurrence of the flag. *)
Lemma parseArgs_loop_sound (n : nat) : ∀ args r v,
  (length args ≤ n)%nat → parseArgs_loop args r = Some v →
  r = Some v ∨
  (v ≠ "" ∧ ∃ i : nat, args !! i = Some "--add-feature" ∧ args !! S i = Some v).
Proof.
  induction n as [|n IH]; intros args r v Hlen.
  - destruct args; [by left | simpl in Hlen; lia].
  - destruct args as [|a rest]; [by left |]. simpl in Hlen. simpl.
    destruct (decide (a = "--add-feature")) as [->|Ha].
    + destruct rest as [|x rest']; [by left |].
      destruct (decide (x = "")) as [->|Hx].
      * intros H.
        destruct (IH ("" :: rest') r v ltac:(lia) H) as [? | (Hv & i & Hi & Hsi)];
          [by left |].
        right. split; [done |]. by exists (S i).
      * intros H. simpl in Hlen.
        destruct (IH rest' (Some x) v ltac:(lia) H) as [[= ->] | (Hv & i & Hi & Hsi)].
        -- right. split; [done |]. by exists O.
        -- right. split; [done |]. by exists (S (S i)).
    + intros H. destruct (IH rest r v ltac:(lia) H) as [? | (Hv & i & Hi & Hsi)];
        [by left |].
      right. split; [done |]. by exists (S i).
Qed.
End ParseArgs.

(** X9.  [parseArgs] returns a feature name only if that name is a non-empty
    argument standing directly after an occurrence of [--add-feature]; when
    the flag does not occur the result is [null]. *)
Theorem parseArgs_sound (args : list string) :
  (∀ v, parseArgs args = Some v →
        v ≠ "" ∧ ∃ i : nat, args !! i = Some "--add-feature" ∧ args !! S i = Some v) ∧
  ("--add-feature" ∉ args → parseArgs args = None).
Proof.
  assert (∀ v, parseArgs args = Some v →
               v ≠ "" ∧ ∃ i : nat, args !! i = Some "--add-feature" ∧
                                   args !! S i = Some v) as Hsound.
  { intros v Hv.
    by destruct (parseArgs_loop_sound (length args) args None v ltac:(lia) Hv). }
  split; [done |]. intros Habsent.
  destruct (parseArgs args) as [v|] eqn:Hv; [| done].
  destruct (Hsound v eq_refl) as (_ & i & Hi & _).
  destruct Habsent. by eapply list_elem_of_lookup_2.
Qed.

(** The theorem at a command line that names a project. *)
Lemma parseArgs_sound_witness :
  "my-app" ≠ "" ∧
  ∃ i : nat, ["--verbose"; "--add-feature"; "my-app"] !! i = Some "--add-feature" ∧
             ["--verbose"; "--add-feature"; "my-app"] !! S i = Some "my-app".
Proof.
  apply (proj1 (parseArgs_sound ["--verbose"; "--add-feature"; "my-app"]) "my-app").
  reflexivity.
Defined.

(** X10.  After arguments that do not contain the flag: a flag followed by a
    non-empty value and by no further flag gives that value; a flag that is
    the last argument is ignored; a flag followed by the empty string is
    ignored too, and parsing goes on behind the empty string; and of two
    well-formed pairs the later one wins. *)
Theorem parseArgs_usage (pre rest : list string) (v : string) :
  "--add-feature" ∉ pre →
  ("--add-feature" ∉ rest → v ≠ "" →
   parseArgs (pre ++ "--add-feature" :: v :: rest) = Some v) ∧
  parseArgs (pre ++ ["--add-feature"]) = None ∧
  parseArgs (pre ++ "--add-feature" :: "" :: rest) = parseArgs rest ∧
  (∀ v', v ≠ "" → v' ≠ "" → "--add-feature" ∉ rest →
     parseArgs (pre ++ "--add-feature" :: v :: "--add-feature" :: v' :: rest) = Some v').
Proof.
  intros Hpre. unfold parseArgs. rewrite !parseArgs_loop_skip by done. split_and!.
  - intros Hrest Hv. rewrite parseArgs_loop_pair by done.
    rewrite <- (app_nil_r rest). by rewrite parseArgs_loop_skip.
  - reflexivity.
  - reflexivity.
  - intros v' Hv Hv' Hrest. rewrite parseArgs_loop_skip by done.
    rewrite !parseArgs_loop_pair by done.
    rewrite <- (app_nil_r rest). by rewrite parseArgs_loop_skip.
Qed.

(** The theorem at [--verbose --add-feature my-app]. *)
Lemma parseArgs_usage_witness :
  parseArgs ["--verbose"; "--add-feature"; "my-app"] = Some "my-app".
Proof.
  assert ("--add-feature" ∉ ["--verbose"]) as Hpre.
  { apply not_elem_of_cons. split; [done | apply not_elem_of_nil]. }
  apply (proj1 (parseArgs_usage ["--verbose"] [] "my-app" Hpre)).
  - apply not_elem_of_nil.
  - done.
Defined.

(** ** Project names and Firebase candidates *)

Section Names.
Implicit Types (t name suffix : list code_unit) (c : code_unit).

Lemma replace_other_chars_ok t : Forall (λ c, is_name_char c = true) (replace_other_chars t).
Proof.
  unfold replace_other_chars. apply Forall_fmap, Forall_forall. intros c _. simpl.
  by destruct (is_name_char c) eqn:Hc.
Qed.

Lemma replace_other_chars_id t :
  Forall (λ c, is_name_char c = true) t → replace_other_chars t = t.
Proof.
  unfold replace_other_chars. induction 1 as [|c t Hc _ IH]; [done |].
  by rewrite fmap_cons, Hc, IH.
Qed.

Lemma valid_project_name_chars name :
  valid_project_name name = true →
  name ≠ [] ∧ Forall (λ c, is_name_char c = true) name.
Proof.
  destruct name as [|c name]; [done |]. intros H. split; [done |].
  apply Forall_forall. intros x Hx%list_elem_of_In.
  unfold valid_project_name in H. rewrite forallb_forall in H. by apply H.
Qed.
End Names.

(** X11.  For every project name and every suffix, the candidate id has at
    most 30 code units, exactly [min 30 (|name| + 1 + |suffix|)] of them, and
    consists of lowercase letters, digits and hyphens only. *)
Theorem firebase_candidate_shape (projectName suffix : list code_unit) :
  (length (firebase_candidate projectName suffix) ≤ 30)%nat ∧
  length (firebase_candidate projectName suffix)
    = (30 `min` (length projectName + 1 + length suffix))%nat ∧
  Forall (λ c, is_name_char c = true) (firebase_candidate projectName suffix).
Proof.
  unfold firebase_candidate.
  assert (length (take 30 (replace_other_chars (projectName ++ 45%N :: suffix)))
          = (30 `min` (length projectName + 1 + length suffix))%nat) as Hlen.
  { rewrite length_take. unfold replace_other_chars.
    rewrite length_fmap, length_app.
    change (length (45%N :: suffix)) with (S (length suffix)). lia. }
  split_and!; [lia | done |]. apply Forall_take, replace_other_chars_ok.
Qed.

(** X12.  For a project name that passes the prompt's validation: when name,
    hyphen and suffix fit into 30 code units and the suffix is made of the
    same characters, the candidate is the name, a hyphen and the suffix,
    unchanged; when the name has 30 code units or more, the candidate is the
    first 30 code units of the name whatever the suffix is, so every retry
    of [createAndLinkFirebase] tries the same id. *)
Theorem firebase_candidate_of_valid_name (projectName : list code_unit) :
  valid_project_name projectName = true →
  (∀ suffix, Forall (λ c, is_name_char c = true) suffix →
     (length projectName + 1 + length suffix ≤ 30)%nat →
     firebase_candidate projectName suffix = projectName ++ 45%N :: suffix) ∧
  ((30 ≤ length projectName)%nat →
   ∀ suffix, firebase_candidate projectName suffix = take 30 projectName).
Proof.
  intros [_ Hchars]%valid_project_name_chars. unfold firebase_candidate. split.
  - intros suffix Hsuffix Hlen. rewrite replace_other_chars_id.
    + apply take_ge. rewrite length_app. simpl. lia.
    + apply Forall_app. split; [done |]. by constructor.
  - intros Hlen suffix. unfold replace_other_chars.
    rewrite fmap_app, take_app_le by (rewrite length_fmap; lia).
    f_equal. by apply replace_other_chars_id.
Qed.

(** The theorem at a name of 32 characters: two different suffixes give the
    same candidate. *)
Lemma firebase_candidate_of_valid_name_witness :
  firebase_candidate long_name (code_units "a1b2c3")
  = firebase_candidate long_name (code_units "zzzzzz").
Proof.
  pose proof (proj2 (firebase_candidate_of_valid_name long_name eq_refl)
                ltac:(vm_compute; lia)) as H.
  by rewrite !H.
Defined.

(** ** Feature-add mode *)

Section FeatureAdd.
Implicit Types (s x : UserStory.t) (l new : list UserStory.t) (doc : PRD.t).

Lemma maxExistingId_ge doc :
  0 ≤ maxExistingId doc ∧
  Forall (λ s, UserStory.id s ≤ maxExistingId doc) (PRD.userStories doc).
Proof.
  unfold maxExistingId. induction (PRD.userStories doc) as [|x l [IH0 IH]].
  - split; [simpl; lia | constructor].
  - rewrite fmap_cons. cbn [foldr]. split; [lia |]. constructor; [lia |].
    eapply Forall_impl; [exact IH |]. cbn beta. intros s Hs. lia.
Qed.

Lemma NEXT_STORY_app l new :
  head (filter (λ s, UserStory.passes s = false) (l ++ new)) =
  match head (filter (λ s, UserStory.passes s = false) l) with
  | Some s => Some s
  | None => head (filter (λ s, UserStory.passes s = false) new)
  end.
Proof.
  rewrite filter_app.
  by destruct (filter (λ s, UserStory.passes s = false) l).
Qed.
End FeatureAdd.

(** At [2^53] the id the prompt asks for is in use: the sum is rounded back
    to [2^53]. *)
Example first_new_id_in_use :
  first_new_id (sample_prd stories_2_53) = 2 ^ 53 ∧
  sample_story (2 ^ 53) false ∈ PRD.userStories (sample_prd stories_2_53).
Proof. split; [by vm_compute | by apply list_elem_of_singleton]. Qed.

(** X13.  [maxExistingId] is at least 0 and at least every id of the task
    list.  When it is below [2^53], where the addition on JavaScript numbers
    is exact, the id the prompt asks the new stories to start from is
    [maxExistingId + 1] and no story of the task list has it.  If the ids of
    the task list increase, and the new stories have increasing ids that are
    all greater than [maxExistingId], as the prompt requests, then the ids of
    the extended task list increase as well. *)
Theorem feature_add_keeps_ids_increasing (newStories : list UserStory.t) (doc : PRD.t) :
  (0 ≤ maxExistingId doc ∧
   (∀ s, s ∈ PRD.userStories doc → UserStory.id s ≤ maxExistingId doc) ∧
   (maxExistingId doc < 2 ^ 53 →
    first_new_id doc = maxExistingId doc + 1 ∧
    ∀ s, s ∈ PRD.userStories doc → UserStory.id s ≠ first_new_id doc)) ∧
  (ids_increasing (PRD.userStories doc) → ids_increasing newStories →
   Forall (λ s, maxExistingId doc < UserStory.id s) newStories →
   ids_increasing (PRD.userStories (addFeature_push newStories doc))).
Proof.
  destruct (maxExistingId_ge doc) as [H0 Hmax]. rewrite Forall_forall in Hmax.
  split.
  - split_and!; [done | done |]. intros Hlt.
    assert (first_new_id doc = maxExistingId doc + 1) as Hid.
    { unfold first_new_id, number_plus_1. by rewrite decide_True. }
    split; [done |]. intros s Hs. specialize (Hmax s Hs). simpl in Hmax.
    rewrite Hid. lia.
  - intros Hold Hnew Hstart. simpl. unfold ids_increasing in *.
    rewrite fmap_app. apply StronglySorted_app_2; [| done | done].
    intros i j (s & -> & Hs)%list_elem_of_fmap (s' & -> & Hs')%list_elem_of_fmap.
    rewrite Forall_forall in Hstart. specialize (Hmax s Hs). specialize (Hstart s' Hs').
    simpl in *. lia.
Qed.

(** The theorem at the list 1, 2, 3, whose new stories are to start from 4,
    extended by stories 4 and 5. *)
Lemma feature_add_keeps_ids_increasing_witness :
  first_new_id (sample_prd stories_1_2_3) = 4 ∧
  ids_increasing (PRD.userStories (addFeature_push stories_4_5 (sample_prd stories_1_2_3))).
Proof.
  destruct (feature_add_keeps_ids_increasing stories_4_5 (sample_prd stories_1_2_3))
    as [(_ & _ & Hfirst) Hinc].
  split.
  - destruct Hfirst as [Hid _]; [by vm_compute | exact Hid].
  - apply Hinc.
    + unfold ids_increasing. simpl. repeat constructor; lia.
    + unfold ids_increasing. simpl. repeat constructor; lia.
    + repeat constructor; by vm_compute.
Defined.

(** X14.  Feature-add mode leaves [prd.json] unwritten exactly when no story
    was generated.  Otherwise the written task list keeps title, overview,
    tech stack and project id, has the new stories behind the old ones, and
    the selector applied to it returns what it returned before whenever an
    old story is still pending, and the first pending new story otherwise. *)
Theorem feature_add_then_select (newStories : list UserStory.t) (doc : PRD.t) :
  (addFeatureMode_prd newStories doc = None ↔ newStories = []) ∧
  ∀ doc', addFeatureMode_prd newStories doc = Some doc' →
    PRD.title doc' = PRD.title doc ∧ PRD.overview doc' = PRD.overview doc ∧
    PRD.techStack doc' = PRD.techStack doc ∧
    PRD.firebaseProjectId doc' = PRD.firebaseProjectId doc ∧
    PRD.userStories doc' = PRD.userStories doc ++ newStories ∧
    TOTAL doc' = (TOTAL doc + length newStories)%nat ∧
    NEXT_STORY doc' =
      match NEXT_STORY doc with
      | Some s => Some s
      | None => head (filter (λ s, UserStory.passes s = false) newStories)
      end.
Proof.
  split.
  - by destruct newStories.
  - intros doc' Hdoc'.
    assert (doc' = addFeature_push newStories doc) as ->.
    { destruct newStories; simpl in Hdoc'; by simplify_eq. }
    split_and!; try done.
    + unfold TOTAL. simpl. by rewrite length_app.
    + rewrite !NEXT_STORY_unfold. simpl. apply NEXT_STORY_app.
Qed.

(** The theorem at the list 1 (passed), 2, 3 extended by stories 4 and 5:
    story 2 is still the next one. *)
Lemma feature_add_then_select_witness :
  NEXT_STORY (addFeature_push stories_4_5 (sample_prd stories_1_2_3))
  = Some (sample_story 2 false).
Proof.
  destruct (proj2 (feature_add_then_select stories_4_5 (sample_prd stories_1_2_3))
              _ eq_refl) as (_ & _ & _ & _ & _ & _ & H).
  exact H.
Defined.
